(** * slug: a thread-safe leveled logger (src/include/slug.hpp)

    The C++ header defines two class templates: [basic_logstream], an output
    stream that writes either to [std::clog]'s buffer or to a file buffer it
    owns, and [basic_logger], which owns one such stream, a mutex, a start
    time and an atomic minimum level.  This development embeds the [char]
    instantiation.  Stream and file-buffer behaviour that the header merely
    calls (sentries, [rdbuf], [setstate], [basic_filebuf::open]) follows the
    C++17 library clauses; each such definition names the clause it follows. *)

From Stdlib Require Import ZArith String Ascii List Bool Lia.
From stdpp Require Import base option strings list gmap pretty.

(** ** Text *)

(** [std::setw(n)] on a stream with the default fill character and the
    default (right) adjustment: pad on the left up to [n] characters. *)
Fixpoint spaces (n : nat) : string :=
  match n with
  | O => ""
  | S k => String " " (spaces k)
  end.

Definition setw (n : nat) (s : string) : string :=
  spaces (n - String.length s) +:+ s.

(** Concatenation of the already rendered pieces of a parameter pack. *)
Fixpoint cat (pieces : list string) : string :=
  match pieces with
  | [] => ""
  | p :: ps => p +:+ cat ps
  end.

(** A duration held as whole milliseconds, converted to [double] seconds and
    printed under [std::fixed << std::setprecision(3)].  The quotient by 1000
    of an integer below 2^52 is within half a unit in the third decimal of
    its nearest [double], so the printed digits are the integer's own. *)
Definition digits3 (r : Z) : string :=
  let d := pretty (Z.to_nat r) in
  (if (r <? 10)%Z then "00" else if (r <? 100)%Z then "0" else "") +:+ d.

Definition fixed3 (ms : Z) : string :=
  let a := Z.abs ms in
  (if (ms <? 0)%Z then "-" else "")
    +:+ pretty (Z.to_nat (a / 1000)) +:+ "." +:+ digits3 (a mod 1000).

Module slug.

(** ** [enum class log_level : std::uint8_t] *)

Module log_level.

Inductive t : Set := Trace | Info | Warn | Error | Fatal | None.

(** The underlying [std::uint8_t] value: enumerators count from zero in
    declaration order. *)
Definition underlying (l : t) : Z :=
  match l with
  | Trace => 0
  | Info => 1
  | Warn => 2
  | Error => 3
  | Fatal => 4
  | None => 5
  end.

(** [a >= b] on a scoped enumeration compares the underlying values. *)
Definition ge (a b : t) : bool := (underlying b <=? underlying a)%Z.

End log_level.

Definition none := log_level.None.
Definition fatal := log_level.Fatal.
Definition error := log_level.Error.
Definition warn := log_level.Warn.
Definition info := log_level.Info.
Definition trace := log_level.Trace.

(** [default_lvl] depends on the [NDEBUG] macro. *)
Definition default_lvl (ndebug : bool) : log_level.t :=
  if ndebug then error else info.

(** ** [std::ios_base] state and open modes *)

Module ios.

(** [iostate]; [eofbit] is left out, no output operation sets it. *)
Record iostate := { badbit : bool; failbit : bool }.

Definition goodbit : iostate := {| badbit := false; failbit := false |}.
Definition only_failbit : iostate := {| badbit := false; failbit := true |}.
Definition only_badbit : iostate := {| badbit := true; failbit := false |}.

Definition bit_or (a b : iostate) : iostate :=
  {| badbit := badbit a || badbit b; failbit := failbit a || failbit b |}.

Definition is_good (s : iostate) : bool := negb (badbit s) && negb (failbit s).

Record openmode :=
  { app : bool; binary : bool; in_ : bool; out : bool; trunc : bool }.

Definition mode_or (a b : openmode) : openmode :=
  {| app := app a || app b; binary := binary a || binary b;
     in_ := in_ a || in_ b; out := out a || out b;
     trunc := trunc a || trunc b |}.

Definition no_mode : openmode :=
  {| app := false; binary := false; in_ := false; out := false;
     trunc := false |}.
Definition mode_app : openmode :=
  {| app := true; binary := false; in_ := false; out := false;
     trunc := false |}.
Definition mode_binary : openmode :=
  {| app := false; binary := true; in_ := false; out := false;
     trunc := false |}.
Definition mode_out : openmode :=
  {| app := false; binary := false; in_ := false; out := true;
     trunc := false |}.

End ios.

(** ** The environment: files, console, clock *)

Record world := {
  files : gmap string string;   (* regular files by path, with their bytes *)
  can_open : string -> bool;    (* does opening this path for writing succeed *)
  clog_put : string;            (* characters held in std::clog's buffer *)
  console : string;             (* characters that reached the console *)
  steady_clock : Z              (* std::chrono::steady_clock, milliseconds *)
}.

Definition with_files (f : gmap string string) (w : world) : world :=
  {| files := f; can_open := can_open w; clog_put := clog_put w;
     console := console w; steady_clock := steady_clock w |}.

Definition with_clog (put dev : string) (w : world) : world :=
  {| files := files w; can_open := can_open w; clog_put := put;
     console := dev; steady_clock := steady_clock w |}.

(** The C [fopen] modes that [basic_filebuf::open] maps open modes to
    ([filebuf.members], table "File open modes"); [binary] only adds a "b". *)
Inductive fopen_mode := mode_r | mode_w | mode_a | mode_r_plus | mode_w_plus
                      | mode_a_plus.

Definition fopen_mode_of (m : ios.openmode) : option fopen_mode :=
  match ios.in_ m, ios.out m, ios.trunc m, ios.app m with
  | false, true, false, false => Some mode_w
  | false, true, true, false => Some mode_w
  | false, true, false, true => Some mode_a
  | false, false, false, true => Some mode_a
  | true, false, false, false => Some mode_r
  | true, true, false, false => Some mode_r_plus
  | true, true, true, false => Some mode_w_plus
  | true, true, false, true => Some mode_a_plus
  | true, false, false, true => Some mode_a_plus
  | _, _, _, _ => None
  end.

(** [fopen]: "w" modes create or truncate, "a" modes create or keep the
    bytes, "r" modes need the file to exist. *)
Definition fopen (path : string) (m : fopen_mode) (w : world) : option world :=
  if can_open w path then
    match m with
    | mode_w | mode_w_plus => Some (with_files (<[path := ""]> (files w)) w)
    | mode_a | mode_a_plus =>
        match files w !! path with
        | Some _ => Some w
        | None => Some (with_files (<[path := ""]> (files w)) w)
        end
    | mode_r | mode_r_plus =>
        match files w !! path with
        | Some _ => Some w
        | None => None
        end
    end
  else None.

(** Bytes written through a file opened for output land at the end of the
    file (always so in the "a" modes the logger uses). *)
Definition fwrite (path : string) (bytes : string) (w : world) : world :=
  with_files (<[path := default "" (files w !! path) +:+ bytes]> (files w)) w.

(** ** [std::basic_filebuf] *)

Module basic_filebuf.

Record t := {
  file : option string;   (* path of the associated open file, if any *)
  put_area : string       (* characters not yet written to the file *)
}.

Definition closed : t := {| file := None; put_area := "" |}.

Definition is_open (fb : t) : bool :=
  match file fb with Some _ => true | None => false end.

(** [open]: fails (null pointer, here [false]) when a file is already
    open, when the mode has no [fopen] equivalent, or when [fopen] fails. *)
Definition open (path : string) (mode : ios.openmode) (w : world) (fb : t)
  : bool * world * t :=
  if is_open fb then (false, w, fb)
  else match fopen_mode_of mode with
       | None => (false, w, fb)
       | Some m =>
           match fopen path m w with
           | Some w' => (true, w', {| file := Some path; put_area := "" |})
           | None => (false, w, fb)
           end
       end.

(** [sync]: write the put area out. *)
Definition sync (w : world) (fb : t) : world * t :=
  match file fb with
  | Some path =>
      (fwrite path (put_area fb) w, {| file := Some path; put_area := "" |})
  | None => (w, fb)
  end.

(** [close]: fails when no file is open; otherwise writes the put area out
    and closes the file. *)
Definition close (w : world) (fb : t) : bool * world * t :=
  match file fb with
  | Some path => (true, fwrite path (put_area fb) w, closed)
  | None => (false, w, fb)
  end.

(** [sputn]: with no open file there is no put area and [overflow] fails,
    so only the empty sequence is written in full. *)
Definition sputn (s : string) (fb : t) : bool * t :=
  match file fb with
  | Some path => (true, {| file := Some path; put_area := put_area fb +:+ s |})
  | None => (bool_decide (s = ""), fb)
  end.

(** [swap] exchanges the two buffers' whole state. *)
Definition swap (a b : t) : t * t := (b, a).

End basic_filebuf.

(** ** [basic_logstream] *)

Module basic_logstream.

(** What [rdbuf()] points to: [std::clog.rdbuf()] or [&m_filebuf]. *)
Inductive streambuf_ptr := clog_rdbuf | own_filebuf.

Record t := {
  rdbuf : streambuf_ptr;
  rdstate : ios.iostate;
  m_filebuf : basic_filebuf.t
}.

Definition with_state (s : ios.iostate) (ls : t) : t :=
  {| rdbuf := rdbuf ls; rdstate := s; m_filebuf := m_filebuf ls |}.

Definition with_filebuf (fb : basic_filebuf.t) (ls : t) : t :=
  {| rdbuf := rdbuf ls; rdstate := rdstate ls; m_filebuf := fb |}.

Definition good (ls : t) : bool := ios.is_good (rdstate ls).

(** [fail()] is true when [failbit] or [badbit] is set. *)
Definition fail (ls : t) : bool :=
  ios.badbit (rdstate ls) || ios.failbit (rdstate ls).

(** [setstate(f)]: [clear(rdstate() | f)]; the exception mask is empty, so
    nothing is thrown. *)
Definition setstate (f : ios.iostate) (ls : t) : t :=
  with_state (ios.bit_or (rdstate ls) f) ls.

(** [basic_ios::rdbuf(sb)]: "Effects: calls clear()"; postcondition
    [rdbuf() == sb]. *)
Definition set_rdbuf (sb : streambuf_ptr) (ls : t) : t :=
  {| rdbuf := sb; rdstate := ios.goodbit; m_filebuf := m_filebuf ls |}.

(** [rdbuf()->pubsync()]; neither buffer reports an error here. *)
Definition pubsync (w : world) (ls : t) : world * t :=
  match rdbuf ls with
  | clog_rdbuf => (with_clog "" (console w +:+ clog_put w) w, ls)
  | own_filebuf =>
      let '(w', fb) := basic_filebuf.sync w (m_filebuf ls) in
      (w', with_filebuf fb ls)
  end.

(** [basic_ostream::flush()]: an unformatted output function; its sentry
    succeeds only on a good stream (the stream is not tied). *)
Definition flush (w : world) (ls : t) : world * t :=
  if good ls then pubsync w ls else (w, ls).

(** [rdbuf()->sputn(s)]. *)
Definition sputn (s : string) (w : world) (ls : t) : bool * world * t :=
  match rdbuf ls with
  | clog_rdbuf => (true, with_clog (clog_put w +:+ s) (console w) w, ls)
  | own_filebuf =>
      let '(ok, fb) := basic_filebuf.sputn s (m_filebuf ls) in
      (ok, w, with_filebuf fb ls)
  end.

(** [os << x], with [x] given by the characters it renders to at width
    zero: nothing happens unless the sentry succeeds, and a short write
    sets [badbit]. *)
Definition insert (s : string) (w : world) (ls : t) : world * t :=
  if good ls then
    let '(ok, w', ls') := sputn s w ls in
    (w', if ok then ls' else setstate ios.only_badbit ls')
  else (w, ls).

(** [std::endl]: [os.put('\n')], then [os.flush()]. *)
Definition newline : string := String (ascii_of_nat 10) "".

Definition endl (w : world) (ls : t) : world * t :=
  let '(w', ls') := insert newline w ls in
  flush w' ls'.

(** [basic_logstream()]: bound to [std::clog]'s buffer. *)
Definition init : t :=
  {| rdbuf := clog_rdbuf; rdstate := ios.goodbit;
     m_filebuf := basic_filebuf.closed |}.

Definition is_open (ls : t) : bool := basic_filebuf.is_open (m_filebuf ls).

Definition close (w : world) (ls : t) : world * t :=
  let '(w1, ls1) := flush w ls in
  if is_open ls1 then
    let '(_, w2, fb) := basic_filebuf.close w1 (m_filebuf ls1) in
    (w2, set_rdbuf clog_rdbuf (with_filebuf fb ls1))
  else (w1, ls1).

(** [std::ios::binary | std::ios::out | std::ios::app]. *)
Definition flags : ios.openmode :=
  ios.mode_or (ios.mode_or ios.mode_binary ios.mode_out) ios.mode_app.

Definition open (filepath : string) (w : world) (ls : t) : world * t :=
  let '(w1, ls1) := if is_open ls then close w ls else (w, ls) in
  let '(buf, w2, fb) := basic_filebuf.open filepath flags w1 (m_filebuf ls1) in
  let ls2 := with_filebuf fb ls1 in
  let ls3 := if buf then ls2 else setstate ios.only_failbit ls2 in
  let '(w4, ls4) := flush w2 ls3 in
  (w4, set_rdbuf own_filebuf ls4).

(** [basic_logstream(path_type const&)]. *)
Definition init_path (filepath : string) (w : world) : world * t :=
  open filepath w init.

(** [swap] on two distinct streams: [basic_ostream::swap] exchanges the
    stream state except for [rdbuf()], which each stream keeps; then the
    file buffers exchange their contents.  [own_filebuf] keeps naming each
    stream's own member. *)
Definition swap (a b : t) : t * t :=
  let '(fa, fb) := basic_filebuf.swap (m_filebuf a) (m_filebuf b) in
  ({| rdbuf := rdbuf a; rdstate := rdstate b; m_filebuf := fa |},
   {| rdbuf := rdbuf b; rdstate := rdstate a; m_filebuf := fb |}).

(** The characters sent so far to the stream's current target: what the
    device holds followed by what its buffer still holds. *)
Definition target_text (w : world) (ls : t) : string :=
  match rdbuf ls with
  | clog_rdbuf => console w +:+ clog_put w
  | own_filebuf =>
      match basic_filebuf.file (m_filebuf ls) with
      | Some path =>
          default "" (files w !! path) +:+ basic_filebuf.put_area (m_filebuf ls)
      | None => ""
      end
  end.

(** The three ways a stream can stand: on the console, on an open file, or
    on its own file buffer with no file behind it. *)
Definition console_bound (ls : t) : bool :=
  match rdbuf ls with
  | clog_rdbuf => negb (is_open ls)
  | own_filebuf => false
  end.

Definition file_bound (ls : t) : bool :=
  match rdbuf ls with clog_rdbuf => false | own_filebuf => is_open ls end.

Definition stranded (ls : t) : bool :=
  match rdbuf ls with
  | clog_rdbuf => false
  | own_filebuf => negb (is_open ls)
  end.

(** A stream that accepts characters: good, and with a target behind it. *)
Definition writable (ls : t) : bool :=
  good ls && (console_bound ls || file_bound ls).

(** Nothing is waiting in the buffer of the current target. *)
Definition flushed (w : world) (ls : t) : bool :=
  match rdbuf ls with
  | clog_rdbuf => bool_decide (clog_put w = "")
  | own_filebuf => bool_decide (basic_filebuf.put_area (m_filebuf ls) = "")
  end.

(** What a holder of the stream can do to it, one member call at a time. *)
Inductive action :=
| do_open (filepath : string)
| do_close
| do_insert (s : string)
| do_endl
| do_flush.

Definition apply (a : action) (w : world) (ls : t) : world * t :=
  match a with
  | do_open filepath => open filepath w ls
  | do_close => close w ls
  | do_insert s => insert s w ls
  | do_endl => endl w ls
  | do_flush => flush w ls
  end.

(** The state a stream reaches from its default construction by a script
    of member calls, each met with whatever environment is there then. *)
Definition reached (script : list (action * world)) : t :=
  fold_left (fun ls aw => (apply aw.1 aw.2 ls).2) script init.

End basic_logstream.

(** ** [basic_logger] *)

Module basic_logger.

Record t := {
  m_start_time : Z;                (* milliseconds on the steady clock *)
  m_lstrm_mtx : option nat;        (* the thread that holds the mutex *)
  m_lstrm : basic_logstream.t;
  m_min_lvl_atm : log_level.t
}.

Definition with_mtx (o : option nat) (lg : t) : t :=
  {| m_start_time := m_start_time lg; m_lstrm_mtx := o;
     m_lstrm := m_lstrm lg; m_min_lvl_atm := m_min_lvl_atm lg |}.

Definition with_lstrm (ls : basic_logstream.t) (lg : t) : t :=
  {| m_start_time := m_start_time lg; m_lstrm_mtx := m_lstrm_mtx lg;
     m_lstrm := ls; m_min_lvl_atm := m_min_lvl_atm lg |}.

Definition with_min_lvl (lvl : log_level.t) (lg : t) : t :=
  {| m_start_time := m_start_time lg; m_lstrm_mtx := m_lstrm_mtx lg;
     m_lstrm := m_lstrm lg; m_min_lvl_atm := lvl |}.

(** [current_time()]. *)
Definition current_time (w : world) : Z := steady_clock w.

(** [basic_logger(log_level lvl)]. *)
Definition init (lvl : log_level.t) (w : world) : t :=
  {| m_start_time := current_time w; m_lstrm_mtx := None;
     m_lstrm := basic_logstream.init; m_min_lvl_atm := lvl |}.

(** [basic_logger(log_level lvl, path_type const& filepath)] and
    [basic_logger(path_type const& filepath, log_level lvl)]. *)
Definition init_path (lvl : log_level.t) (filepath : string) (w : world)
  : world * t :=
  let '(w', ls) := basic_logstream.init_path filepath w in
  (w', {| m_start_time := current_time w; m_lstrm_mtx := None;
          m_lstrm := ls; m_min_lvl_atm := lvl |}).

(** [elapsed_time()], kept in milliseconds; the [double] it returns is
    this count over 1000 and [fixed3] prints it. *)
Definition elapsed_time (w : world) (lg : t) : Z :=
  current_time w - m_start_time lg.

(** [msg_prefix()], for the calling thread [tid] whose id prints as its
    number in decimal. *)
Definition msg_prefix (tid : nat) (w : world) (lg : t) : string :=
  "[" +:+ setw 5 (pretty tid) +:+ "," +:+ " "
      +:+ fixed3 (elapsed_time w lg) +:+ "] ".

(** Loggers live at addresses; the environment is shared by all. *)
Record state := { env : world; objects : gmap nat t }.

Definition with_env (w : world) (st : state) : state :=
  {| env := w; objects := objects st |}.

Definition store (a : nat) (w : world) (lg : t) (st : state) : state :=
  {| env := w; objects := <[a := lg]> (objects st) |}.

(** The steps a member function is made of.  A thread runs them one at a
    time; other threads may run theirs in between. *)
Inductive op :=
| lock_stream (a : nat)              (* auto l{lock_stream()} *)
| unlock_stream (a : nat)            (* l leaves its scope *)
| put_prefix (a : nat)               (* m_lstrm << msg_prefix() *)
| put_text (a : nat) (s : string)    (* m_lstrm << a piece of text *)
| put_endl (a : nat)                 (* m_lstrm << std::endl *)
| open_stream (a : nat) (filepath : string)   (* m_lstrm.open(filepath) *)
| close_stream (a : nat)             (* m_lstrm.close() *)
| store_min_lvl (a : nat) (lvl : log_level.t) (* m_min_lvl_atm.store(lvl) *)
| swap_members (a b : nat).          (* the three exchanges of swap *)

Definition on_stream (a : nat)
    (f : world -> basic_logstream.t -> world * basic_logstream.t)
    (st : state) : option state :=
  lg ← objects st !! a;
  let '(w, ls) := f (env st) (m_lstrm lg) in
  Some (store a w (with_lstrm ls lg) st).

(** One step of thread [tid]; [None] when the step cannot be taken now
    (the mutex is held) or the object does not exist. *)
Definition exec (tid : nat) (o : op) (st : state) : option state :=
  match o with
  | lock_stream a =>
      lg ← objects st !! a;
      match m_lstrm_mtx lg with
      | None => Some (store a (env st) (with_mtx (Some tid) lg) st)
      | Some _ => None
      end
  | unlock_stream a =>
      lg ← objects st !! a;
      if decide (m_lstrm_mtx lg = Some tid)
      then Some (store a (env st) (with_mtx None lg) st)
      else None
  | put_prefix a =>
      lg ← objects st !! a;
      on_stream a (basic_logstream.insert (msg_prefix tid (env st) lg)) st
  | put_text a s => on_stream a (basic_logstream.insert s) st
  | put_endl a => on_stream a basic_logstream.endl st
  | open_stream a filepath => on_stream a (basic_logstream.open filepath) st
  | close_stream a => on_stream a basic_logstream.close st
  | store_min_lvl a lvl =>
      lg ← objects st !! a;
      Some (store a (env st) (with_min_lvl lvl lg) st)
  | swap_members a b =>
      la ← objects st !! a;
      lb ← objects st !! b;
      let '(sa, sb) := basic_logstream.swap (m_lstrm la) (m_lstrm lb) in
      let la' := {| m_start_time := m_start_time lb;
                    m_lstrm_mtx := m_lstrm_mtx la;
                    m_lstrm := sa; m_min_lvl_atm := m_min_lvl_atm lb |} in
      let lb' := {| m_start_time := m_start_time la;
                    m_lstrm_mtx := m_lstrm_mtx lb;
                    m_lstrm := sb; m_min_lvl_atm := m_min_lvl_atm la |} in
      Some {| env := env st;
              objects := <[b := lb']> (<[a := la']> (objects st)) |}
  end.

(** The body of a leveled call once the level test is passed. *)
Definition write_line (this : nat) (tag : string) (msgs : list string)
  : list op :=
  [lock_stream this; put_prefix this; put_text this tag]
    ++ map (put_text this) msgs
    ++ [put_endl this; unlock_stream this].

(** Each member function reads the state it branches on (the atomic level,
    the addresses) and yields the steps it will take. *)
Definition min_log_level (this : nat) (lvl : log_level.t) (st : state)
  : option (list op) :=
  _ ← objects st !! this; Some [store_min_lvl this lvl].

Definition open_file (this : nat) (filepath : string) (st : state)
  : option (list op) :=
  _ ← objects st !! this;
  Some [lock_stream this; open_stream this filepath; unlock_stream this].

Definition close_file (this : nat) (st : state) : option (list op) :=
  _ ← objects st !! this;
  Some [lock_stream this; close_stream this; unlock_stream this].

Definition fatal (this : nat) (msgs : list string) (st : state)
  : option (list op) :=
  lg ← objects st !! this;
  Some (if log_level.ge slug.fatal (m_min_lvl_atm lg)
        then write_line this "FATAL: " msgs else []).

Definition error (this : nat) (msgs : list string) (st : state)
  : option (list op) :=
  lg ← objects st !! this;
  Some (if log_level.ge slug.error (m_min_lvl_atm lg)
        then write_line this "ERROR: " msgs else []).

Definition warning (this : nat) (msgs : list string) (st : state)
  : option (list op) :=
  lg ← objects st !! this;
  Some (if log_level.ge slug.warn (m_min_lvl_atm lg)
        then write_line this "WARN:  " msgs else []).

Definition info (this : nat) (msgs : list string) (st : state)
  : option (list op) :=
  lg ← objects st !! this;
  Some (if log_level.ge slug.info (m_min_lvl_atm lg)
        then write_line this "INFO:  " msgs else []).

Definition trace (this : nat) (msgs : list string) (st : state)
  : option (list op) :=
  lg ← objects st !! this;
  Some (if log_level.ge slug.trace (m_min_lvl_atm lg)
        then write_line this "TRACE: " msgs else []).

Definition swap (this rhs : nat) (st : state) : option (list op) :=
  _ ← objects st !! this;
  _ ← objects st !! rhs;
  Some (if decide (this = rhs) then []
        else [lock_stream this; lock_stream rhs; swap_members this rhs;
              unlock_stream rhs; unlock_stream this]).

(** The five leveled entry points; there is none for [log_level.None]. *)
Inductive leveled := Fatal | Error | Warning | Info | Trace.

Inductive call :=
| log (m : leveled) (msgs : list string)
| set_level (lvl : log_level.t)
| open_ (filepath : string)
| close_
| swap_with (rhs : nat).

Definition body (this : nat) (c : call) (st : state) : option (list op) :=
  match c with
  | log Fatal msgs => fatal this msgs st
  | log Error msgs => error this msgs st
  | log Warning msgs => warning this msgs st
  | log Info msgs => info this msgs st
  | log Trace msgs => trace this msgs st
  | set_level lvl => min_log_level this lvl st
  | open_ filepath => open_file this filepath st
  | close_ => close_file this st
  | swap_with rhs => swap this rhs st
  end.

(** A thread running by itself takes its steps in order. *)
Fixpoint run (tid : nat) (ops : list op) (st : state) : option state :=
  match ops with
  | [] => Some st
  | o :: rest => st' ← exec tid o st; run tid rest st'
  end.

(** A whole call by thread [tid], with nothing in between its steps; the
    value returned is the reference [*this]. *)
Definition invoke (tid this : nat) (c : call) (st : state)
  : option (nat * state) :=
  ops ← body this c st;
  st' ← run tid ops st;
  Some (this, st').

(** The text sent so far to the current target of the logger at [a]. *)
Definition text_at (a : nat) (st : state) : option string :=
  lg ← objects st !! a;
  Some (basic_logstream.target_text (env st) (m_lstrm lg)).

End basic_logger.

(** ** Threads sharing loggers *)

Module threads.

Import basic_logger.

(** A thread: the steps left of the call it is in, and the calls it will
    make afterwards, each on the logger at the given address. *)
Record thread := { pending : list op; todo : list (nat * call) }.

Record config := { shared : state; pool : list thread }.

(** Thread [i] takes its next step: a step of the call it is in, or else
    the entry into its next call (where the level is loaded). *)
Definition thread_step (i : nat) (c : config) : option config :=
  t ← pool c !! i;
  match pending t with
  | o :: rest =>
      st' ← exec i o (shared c);
      Some {| shared := st';
              pool := <[i := {| pending := rest; todo := todo t |}]> (pool c) |}
  | [] =>
      match todo t with
      | (this, cl) :: later =>
          ops ← body this cl (shared c);
          Some {| shared := shared c;
                  pool := <[i := {| pending := ops; todo := later |}]>
                          (pool c) |}
      | [] => None
      end
  end.

Definition advance (d : Z) (w : world) : world :=
  {| files := files w; can_open := can_open w; clog_put := clog_put w;
     console := console w; steady_clock := (steady_clock w + d)%Z |}.

Inductive event := step_of (i : nat) | tick (d : Z).

(** The steady clock only moves forward. *)
Definition step (e : event) (c : config) : option config :=
  match e with
  | step_of i => thread_step i c
  | tick d =>
      if (0 <=? d)%Z
      then Some {| shared := with_env (advance d (env (shared c))) (shared c);
                   pool := pool c |}
      else None
  end.

(** A schedule is the order in which the threads get to take steps. *)
Fixpoint steps (es : list event) (c : config) : option config :=
  match es with
  | [] => Some c
  | e :: rest => c' ← step e c; steps rest c'
  end.

Definition idle (t : thread) : bool :=
  match pending t, todo t with
  | [], [] => true
  | _, _ => false
  end.

Definition finished (c : config) : bool := forallb idle (pool c).

(** Work is left, and no thread can take a step. *)
Definition deadlocked (c : config) : Prop :=
  finished c = false /\ forall i, thread_step i c = None.

(** Every thread starts between calls. *)
Definition spawn (st : state) (progs : list (list (nat * call))) : config :=
  {| shared := st;
     pool := map (fun p => {| pending := []; todo := p |}) progs |}.

End threads.

End slug.

Import slug.

(** * Vocabulary of the statements *)

Section vocabulary.

Import basic_logstream.

(** [r] is what a stream and its environment look like after [s] went
    through the writable stream [ls] in environment [w]. *)
Definition appended (s : string) (w : world) (ls : t) (r : world * t) : Prop :=
  writable r.2 = true
  /\ target_text r.1 r.2 = target_text w ls +:+ s
  /\ rdbuf r.2 = rdbuf ls
  /\ basic_filebuf.file (m_filebuf r.2) = basic_filebuf.file (m_filebuf ls)
  /\ steady_clock r.1 = steady_clock w
  /\ can_open r.1 = can_open w.

(** A small environment for the concrete cases below: one log file is
    there already, and only paths under /var/log/ can be opened. *)
Definition sample_world : world :=
  {| files := {[ "/var/log/app.log" := "boot" +:+ newline ]};
     can_open := String.prefix "/var/log/";
     clog_put := ""; console := ""; steady_clock := 5000 |}.

(** The stream after an open on a path whose directory is missing. *)
Definition after_failed_open : t :=
  reached [(do_open "/missing/dir/app.log", sample_world)].

(** A logger constructed on the console in the sample environment, at
    address 7, looked at two milliseconds later. *)
Definition sample_state (lvl : log_level.t) : basic_logger.state :=
  {| basic_logger.env := threads.advance 2 sample_world;
     basic_logger.objects := {[ 7 := basic_logger.init lvl sample_world ]} |}.

Definition stranded_at (a : nat) (st : basic_logger.state) : bool :=
  match basic_logger.objects st !! a with
  | Some lg => stranded (basic_logger.m_lstrm lg)
  | None => false
  end.

(** Files only grow from [w] to [w']: every file of [w] is still there
    in [w'], with the bytes it had in front. *)
Definition extends (w w' : world) : Prop :=
  forall path content,
    files w !! path = Some content ->
    exists extra, files w' !! path = Some (content +:+ extra).

(** The constants of the five leveled member functions: the level each
    compares with the threshold and the tag each writes. *)
Definition severity (m : basic_logger.leveled) : log_level.t :=
  match m with
  | basic_logger.Fatal => slug.fatal
  | basic_logger.Error => slug.error
  | basic_logger.Warning => slug.warn
  | basic_logger.Info => slug.info
  | basic_logger.Trace => slug.trace
  end.

Definition tag (m : basic_logger.leveled) : string :=
  match m with
  | basic_logger.Fatal => "FATAL: "
  | basic_logger.Error => "ERROR: "
  | basic_logger.Warning => "WARN:  "
  | basic_logger.Info => "INFO:  "
  | basic_logger.Trace => "TRACE: "
  end.

(** The characters one leveled call sends, in order, when thread [tid]
    makes it on logger [lg] with the clock as in [w]. *)
Definition line_of (tid : nat) (w : world) (lg : basic_logger.t)
    (m : basic_logger.leveled) (msgs : list string) : string :=
  basic_logger.msg_prefix tid w lg +:+ tag m +:+ cat msgs +:+ newline.

(** The line shape in the spec's words:
    "[<thread-id>, <elapsed-seconds>] <LEVELTAG><args>" and a line end. *)
Definition spec_line (thread_id elapsed leveltag : string)
    (args : list string) : string :=
  "[" +:+ thread_id +:+ ", " +:+ elapsed +:+ "] " +:+ leveltag
      +:+ cat args +:+ newline.

End vocabulary.

(** ** Threads writing through one logger *)

(** A line on the stream: the thread that wrote it, the clock reading in
    its prefix, and the call it came from. *)
Record emitted := {
  who : nat;
  at_ms : Z;
  what : basic_logger.leveled;
  args : list string
}.

(** The characters of a line, for a logger constructed at [start]. *)
Definition render (start : Z) (l : emitted) : string :=
  spec_line (setw 5 (pretty (who l))) (fixed3 (at_ms l - start))
    (tag (what l)) (args l).

Definition to_call (a : nat) (c : basic_logger.leveled * list string)
  : nat * basic_logger.call :=
  (a, basic_logger.log c.1 c.2).

(** The calls of a program whose severity is at least threshold [T]. *)
Definition passes (T : log_level.t) (c : basic_logger.leveled * list string)
  : bool :=
  log_level.ge (severity c.1) T.

(** The calls behind the lines that thread [i] wrote, in the order of the
    lines. *)
Definition calls_of (i : nat) (lines : list emitted)
  : list (basic_logger.leveled * list string) :=
  map (fun l => (what l, args l)) (List.filter (fun l => who l =? i) lines).

(** Every step that touches a logger's stream comes after the lock of that
    logger's mutex and before its unlock, and no mutex stays locked. *)
Fixpoint guarded (held : list nat) (ops : list basic_logger.op) : bool :=
  match ops with
  | [] => match held with [] => true | _ :: _ => false end
  | basic_logger.lock_stream a :: rest => guarded (a :: held) rest
  | basic_logger.unlock_stream a :: rest =>
      bool_decide (a ∈ held)
      && guarded (List.filter (fun b => negb (b =? a)) held) rest
  | basic_logger.put_prefix a :: rest
  | basic_logger.put_text a _ :: rest
  | basic_logger.put_endl a :: rest
  | basic_logger.open_stream a _ :: rest
  | basic_logger.close_stream a :: rest =>
      bool_decide (a ∈ held) && guarded held rest
  | basic_logger.swap_members a b :: rest =>
      bool_decide (a ∈ held) && bool_decide (b ∈ held) && guarded held rest
  | basic_logger.store_min_lvl _ _ :: rest => guarded held rest
  end.

(** Two threads on the sample logger: thread 0 logs at Info and then at
    Trace, thread 1 logs at Error; thread 1 gets the mutex first and thread 0
    waits for it. *)
Definition sample_programs : list (list (basic_logger.leveled * list string)) :=
  [ [(basic_logger.Info, ["a"]); (basic_logger.Trace, ["skipped"])];
    [(basic_logger.Error, ["b"; "c"])] ].

Definition sample_schedule : list threads.event :=
  [threads.step_of 0; threads.step_of 1; threads.step_of 1; threads.step_of 1;
   threads.tick 3]
    ++ replicate 5 (threads.step_of 1)
    ++ replicate 7 (threads.step_of 0).

(** Two loggers, at addresses 1 and 2, and two threads that swap them:
    thread 0 calls swap on the first with the second, thread 1 on the second
    with the first. *)
Definition two_loggers : basic_logger.state :=
  {| basic_logger.env := sample_world;
     basic_logger.objects :=
       {[ 1 := basic_logger.init slug.info sample_world;
          2 := basic_logger.init slug.error sample_world ]} |}.

Definition opposite_swaps : threads.config :=
  threads.spawn two_loggers
    [ [(1, basic_logger.swap_with 2)]; [(2, basic_logger.swap_with 1)] ].

Section interleaving.

Import basic_logstream basic_logger threads.

(** The logger at [a], its threshold [T] and start time, the text [text0]
    its target held before the threads started, and their programs. *)
Variables (a : nat) (T : log_level.t) (start : Z) (text0 : string).
Variable progs : list (list (leveled * list string)).

Definition base (lines : list emitted) : string :=
  text0 +:+ cat (map (render start) lines).

(** Thread [i] has written [lines], is inside [inflight] (one call or
    none) and has [rest] to go: together, its calls at or above [T]. *)
Definition accounted (i : nat) (lines : list emitted)
    (inflight rest : list (leveled * list string)) : Prop :=
  calls_of i lines ++ inflight ++ List.filter (passes T) rest
  = List.filter (passes T) (default [] (progs !! i)).

(** Where thread [i] is in its current call, by the steps it has left,
    with [txt] the text on the target. *)
Inductive phase (i : nat) (lg : basic_logger.t) (txt : string)
    (lines : list emitted) (rest : list (leveled * list string))
  : list op -> Prop :=
| between_calls :
    m_lstrm_mtx lg <> Some i ->
    accounted i lines [] rest ->
    phase i lg txt lines rest []
| before_lock m msgs :
    m_lstrm_mtx lg <> Some i ->
    accounted i lines [(m, msgs)] rest ->
    phase i lg txt lines rest (write_line a (tag m) msgs)
| after_lock m msgs :
    m_lstrm_mtx lg = Some i ->
    txt = base lines ->
    accounted i lines [(m, msgs)] rest ->
    phase i lg txt lines rest
      (put_prefix a :: put_text a (tag m)
         :: map (put_text a) msgs ++ [put_endl a; unlock_stream a])
| in_line m msgs clk pieces :
    m_lstrm_mtx lg = Some i ->
    txt +:+ cat pieces +:+ newline
    = base lines
      +:+ render start {| who := i; at_ms := clk; what := m; args := msgs |} ->
    accounted i lines [(m, msgs)] rest ->
    phase i lg txt lines rest
      (map (put_text a) pieces ++ [put_endl a; unlock_stream a])
| before_unlock :
    m_lstrm_mtx lg = Some i ->
    txt = base lines ->
    accounted i lines [] rest ->
    phase i lg txt lines rest [unlock_stream a].

(** What holds of every configuration the threads can get to. *)
Definition inv (c : config) : Prop :=
  exists (lines : list emitted) (lg : basic_logger.t),
    objects (shared c) !! a = Some lg
    /\ m_min_lvl_atm lg = T
    /\ m_start_time lg = start
    /\ writable (m_lstrm lg) = true
    /\ (m_lstrm_mtx lg = None ->
        target_text (env (shared c)) (m_lstrm lg) = base lines)
    /\ (forall k, m_lstrm_mtx lg = Some k -> k < length (pool c))
    /\ Forall (fun l => who l < length progs) lines
    /\ length (pool c) = length progs
    /\ forall i t,
        pool c !! i = Some t ->
        exists rest,
          todo t = map (to_call a) rest
          /\ phase i lg (target_text (env (shared c)) (m_lstrm lg))
               lines rest (pending t).

End interleaving.

(** ** The other members of [basic_logger] *)

Section other_members.

Import basic_logstream basic_logger.

(** [min_log_level()], the getter: the atomic load. *)
Definition get_min_log_level (this : nat) (st : state) : option log_level.t :=
  m_min_lvl_atm <$> objects st !! this.

(** [start_time()]. *)
Definition start_time (this : nat) (st : state) : option Z :=
  m_start_time <$> objects st !! this.

(** [stream()]. *)
Definition stream (this : nat) (st : state) : option basic_logstream.t :=
  m_lstrm <$> objects st !! this.

(** [basic_logger(lvl)], constructed at address [this]. *)
Definition construct (this : nat) (lvl : log_level.t) (st : state) : state :=
  {| env := env st;
     objects := <[this := basic_logger.init lvl (env st)]> (objects st) |}.

(** [basic_logger(lvl, filepath)] and [basic_logger(filepath, lvl)],
    constructed at address [this]. *)
Definition construct_path (this : nat) (lvl : log_level.t) (filepath : string)
    (st : state) : state :=
  let '(w, lg) := basic_logger.init_path lvl filepath (env st) in
  {| env := w; objects := <[this := lg]> (objects st) |}.

(** [~basic_logger()]: defaulted, it destroys [m_lstrm], whose destructor
    calls [close()]; the object is gone afterwards. *)
Definition destroy (this : nat) (st : state) : option state :=
  lg ← objects st !! this;
  let '(w, _) := close (env st) (m_lstrm lg) in
  Some {| env := w; objects := delete this (objects st) |}.

(** Member calls on a stream, one after the other. *)
Definition play (script : list action) (w : world) (ls : basic_logstream.t)
  : world * basic_logstream.t :=
  fold_left (fun r a => apply a r.1 r.2) script (w, ls).

(** What a call of thread [tid] does to the stream of the logger it is made
    on, once it holds the mutex. *)
Definition script_of (tid : nat) (w : world) (lg : basic_logger.t) (c : call)
  : list action :=
  match c with
  | log m msgs =>
      if log_level.ge (severity m) (m_min_lvl_atm lg)
      then do_insert (msg_prefix tid w lg) :: do_insert (tag m)
             :: map do_insert msgs ++ [do_endl]
      else []
  | open_ filepath => [do_open filepath]
  | close_ => [do_close]
  | set_level _ => []
  | swap_with _ => []
  end.

(** Whether a call gets to the point where it locks the mutex. *)
Definition locks (lg : basic_logger.t) (c : call) : bool :=
  match c with
  | log m _ => log_level.ge (severity m) (m_min_lvl_atm lg)
  | open_ _ | close_ => true
  | set_level _ => false
  | swap_with _ => false
  end.

(** The steps a thread has left: those of the call it is in, and for each
    call to come its steps and the entry into it. *)
Definition steps_left (t : threads.thread) : nat :=
  length (threads.pending t)
  + sum_list
      (map (fun c : nat * call =>
              match c.2 with
              | log _ msgs => 6 + length msgs
              | _ => 6
              end) (threads.todo t)).

Definition work_left (c : threads.config) : nat :=
  sum_list (map steps_left (threads.pool c)).


(** Logger [lg] is [lg0] with its stream moved to the open file [p],
    good, with nothing buffered, and its mutex free. *)
Definition on_file (p : string) (lg0 lg : basic_logger.t) : Prop :=
  basic_logger.m_lstrm_mtx lg = None
  /\ basic_logger.m_min_lvl_atm lg = basic_logger.m_min_lvl_atm lg0
  /\ basic_logger.m_start_time lg = basic_logger.m_start_time lg0
  /\ basic_logstream.writable (basic_logger.m_lstrm lg) = true
  /\ basic_logstream.rdbuf (basic_logger.m_lstrm lg)
     = basic_logstream.own_filebuf
  /\ basic_logstream.m_filebuf (basic_logger.m_lstrm lg)
     = {| basic_filebuf.file := Some p; basic_filebuf.put_area := "" |}.


(** What [swap] leaves in a logger: the other's start time, level, stream
    state and file buffer, under its own mutex and its own [rdbuf()]. *)
Definition swapped_with (mine other : basic_logger.t) : basic_logger.t :=
  {| basic_logger.m_start_time := basic_logger.m_start_time other;
     basic_logger.m_lstrm_mtx := basic_logger.m_lstrm_mtx mine;
     basic_logger.m_lstrm :=
       {| basic_logstream.rdbuf :=
            basic_logstream.rdbuf (basic_logger.m_lstrm mine);
          basic_logstream.rdstate :=
            basic_logstream.rdstate (basic_logger.m_lstrm other);
          basic_logstream.m_filebuf :=
            basic_logstream.m_filebuf (basic_logger.m_lstrm other) |};
     basic_logger.m_min_lvl_atm := basic_logger.m_min_lvl_atm other |}.

End other_members.

(** * Facts about text *)

Section text_facts.

Lemma text_app_nil_l (s : string) : "" +:+ s = s.
Proof. reflexivity. Qed.

Lemma text_app_cons (c : ascii) (s t : string) :
  String c s +:+ t = String c (s +:+ t).
Proof. reflexivity. Qed.

Lemma text_app_nil_r (s : string) : s +:+ "" = s.
Proof.
  induction s as [|c s IH]; [done |].
  by rewrite text_app_cons, IH.
Qed.

Lemma text_app_assoc (a b c : string) : (a +:+ b) +:+ c = a +:+ (b +:+ c).
Proof.
  induction a as [|x a IH]; [done |].
  by rewrite !text_app_cons, IH.
Qed.

Lemma text_app_length (a b : string) :
  String.length (a +:+ b) = String.length a + String.length b.
Proof.
  induction a as [|x a IH]; [done |].
  rewrite text_app_cons. simpl. by rewrite IH.
Qed.

(** Appending something leaves a text as it was only if nothing is
    appended. *)
Lemma text_app_same_nil (a b : string) : a +:+ b = a -> b = "".
Proof.
  intros H. apply (f_equal String.length) in H.
  rewrite text_app_length in H. destruct b; [done | simpl in H; lia].
Qed.

Lemma cat_app (xs ys : list string) : cat (xs ++ ys) = cat xs +:+ cat ys.
Proof.
  induction xs as [|x xs IH]; simpl; [done |].
  by rewrite IH, text_app_assoc.
Qed.

Lemma spaces_length (n : nat) : String.length (spaces n) = n.
Proof. induction n; simpl; [done | by f_equal]. Qed.

Lemma setw_wide (n : nat) (s : string) : n <= String.length s -> setw n s = s.
Proof.
  intros H. unfold setw. by replace (n - String.length s) with 0 by lia.
Qed.

Lemma setw_length (n : nat) (s : string) :
  String.length (setw n s) = Nat.max n (String.length s).
Proof. unfold setw. rewrite text_app_length, spaces_length. lia. Qed.

End text_facts.

(** * Facts about the stream *)

Section stream_facts.

Import basic_logstream.

Lemma writable_cases (ls : t) :
  writable ls = true ->
  rdstate ls = ios.goodbit
  /\ ((rdbuf ls = clog_rdbuf /\ basic_filebuf.file (m_filebuf ls) = None)
      \/ (rdbuf ls = own_filebuf
          /\ exists p, basic_filebuf.file (m_filebuf ls) = Some p)).
Proof.
  destruct ls as [rb [bad fl] [f pa]].
  unfold writable, good, ios.is_good, console_bound, file_bound, is_open,
    basic_filebuf.is_open; simpl.
  destruct rb, bad, fl, f; simpl; intros H; try discriminate;
    (split; [done |]); eauto.
Qed.

Lemma insert_appended (s : string) (w : world) (ls : t) :
  writable ls = true -> appended s w ls (insert s w ls).
Proof.
  intros Hw. destruct (writable_cases ls Hw) as [Hst Hcase].
  destruct ls as [rb st [f pa]]; simpl in *; subst st.
  destruct Hcase as [[-> ->] | [-> [p ->]]];
    unfold appended, insert, good, target_text; simpl;
    repeat split; try done.
  - by rewrite text_app_assoc.
  - by rewrite text_app_assoc.
Qed.

Lemma flush_writable (w : world) (ls : t) :
  writable ls = true ->
  appended "" w ls (flush w ls) /\ flushed (flush w ls).1 (flush w ls).2 = true.
Proof.
  intros Hw. destruct (writable_cases ls Hw) as [Hst Hcase].
  destruct ls as [rb st [f pa]]; simpl in *; subst st.
  destruct Hcase as [[-> ->] | [-> [p ->]]];
    unfold appended, flush, good, flushed, fwrite, target_text; simpl;
    repeat split; try done.
  by rewrite lookup_insert_eq.
Qed.

Lemma appended_trans (s1 s2 : string) (w : world) (ls : t) (r1 r2 : world * t) :
  appended s1 w ls r1 -> appended s2 r1.1 r1.2 r2 ->
  appended (s1 +:+ s2) w ls r2.
Proof.
  intros (Ha1 & Ha2 & Ha3 & Ha4 & Ha5 & Ha6).
  intros (Hb1 & Hb2 & Hb3 & Hb4 & Hb5 & Hb6).
  unfold appended. rewrite Hb2, Ha2, text_app_assoc.
  repeat split; try done; congruence.
Qed.

Lemma endl_appended (w : world) (ls : t) :
  writable ls = true ->
  appended newline w ls (endl w ls)
  /\ flushed (endl w ls).1 (endl w ls).2 = true.
Proof.
  intros Hw. unfold endl.
  pose proof (insert_appended newline w ls Hw) as H1.
  destruct (insert newline w ls) as [w1 ls1] eqn:E. simpl in H1.
  destruct (flush_writable w1 ls1) as [H2 H3]; [apply H1 |].
  split; [| done].
  rewrite <- (text_app_nil_r newline).
  by apply (appended_trans _ _ _ _ (w1, ls1)).
Qed.

End stream_facts.

(** * Where a stream can stand *)

Section stream_states.

Import basic_logstream.

Lemma reached_snoc (script : list (action * world)) (a : action) (w : world) :
  reached (script ++ [(a, w)]) = (apply a w (reached script)).2.
Proof. unfold reached. by rewrite fold_left_app. Qed.

(** An open file is always the stream's target. *)
Lemma apply_keeps_open_on_filebuf (a : action) (w : world) (ls : t) :
  (is_open ls = true -> rdbuf ls = own_filebuf) ->
  is_open (apply a w ls).2 = true -> rdbuf (apply a w ls).2 = own_filebuf.
Proof.
  destruct ls as [rb [bad fl] [f pa]].
  destruct a; unfold apply, open, close, endl, insert, flush, pubsync, sputn,
    good, is_open, basic_filebuf.is_open, basic_filebuf.open,
    basic_filebuf.close, basic_filebuf.sync, basic_filebuf.sputn; simpl;
    intros Hinv; destruct rb, bad, fl, f; simpl in *;
    repeat (case_match; simplify_eq/=); try done; auto.
Qed.

Lemma reached_open_on_filebuf (script : list (action * world)) :
  is_open (reached script) = true -> rdbuf (reached script) = own_filebuf.
Proof.
  induction script as [|[a w] script IH] using rev_ind; [done |].
  rewrite reached_snoc. by apply apply_keeps_open_on_filebuf.
Qed.

Lemma close_frame (w : world) (ls : t) :
  is_open (close w ls).2 = false
  /\ can_open (close w ls).1 = can_open w
  /\ steady_clock (close w ls).1 = steady_clock w.
Proof.
  destruct ls as [rb [bad fl] [f pa]].
  unfold close, flush, pubsync, good, is_open, basic_filebuf.is_open,
    basic_filebuf.close, basic_filebuf.sync; simpl.
  destruct rb, bad, fl, f; simpl; done.
Qed.

(** An open that the environment refuses: the file buffer stays closed,
    [failbit] is set, and the final [rdbuf(&m_filebuf)] makes the file
    buffer the target and clears the state again. *)
Lemma open_refused (filepath : string) (w : world) (ls : t) :
  can_open w filepath = false ->
  open filepath w ls =
    let r := if is_open ls then close w ls else (w, ls) in
    (r.1, set_rdbuf own_filebuf r.2).
Proof.
  intros Hno. unfold open.
  destruct (is_open ls) eqn:Hopen.
  - destruct (close_frame w ls) as (Hc & Hcan & _).
    destruct (close w ls) as [w1 ls1]; simpl in *.
    unfold basic_filebuf.open. unfold is_open in Hc. rewrite Hc. simpl.
    unfold fopen. rewrite Hcan, Hno. simpl.
    unfold flush, good, setstate; simpl.
    destruct (rdstate ls1) as [bad fl]; simpl.
    unfold ios.is_good; simpl. rewrite orb_true_r, andb_false_r.
    by destruct ls1.
  - unfold basic_filebuf.open. unfold is_open in Hopen. rewrite Hopen. simpl.
    unfold fopen. rewrite Hno. simpl.
    unfold flush, good, setstate; simpl.
    destruct (rdstate ls) as [bad fl]; simpl.
    unfold ios.is_good; simpl. rewrite orb_true_r, andb_false_r.
    by destruct ls.
Qed.

End stream_states.

(** * The stream's target (C4, C6) *)

Section stream_target.

Import basic_logstream.

(** C4, as stated, fails: after an open that failed the stream stands on
    its own closed file buffer, and [close()] leaves it there, not on the
    console, with nothing that accepts characters. *)
Lemma close_after_failed_open_not_on_console :
  stranded after_failed_open = true
  /\ console_bound (close sample_world after_failed_open).2 = false
  /\ writable (close sample_world after_failed_open).2 = false.
Proof. by vm_compute. Qed.

(** C4, amended: in every state reached from construction through [open],
    [close], insertions and flushes the stream stands in exactly one of
    three ways (on the console, on an open file, or stranded on its closed
    file buffer after a failed open); [close()] never leaves a file open and
    leaves the stream on the console exactly when it was not stranded. *)
Theorem one_target_and_close_to_console
    (script : list (action * world)) (w : world) :
  let ls := reached script in
  match console_bound ls, file_bound ls, stranded ls with
  | true, false, false | false, true, false | false, false, true => True
  | _, _, _ => False
  end
  /\ is_open (close w ls).2 = false
  /\ console_bound (close w ls).2 = negb (stranded ls)
  /\ stranded (close w ls).2 = stranded ls.
Proof.
  intros ls. pose proof (reached_open_on_filebuf script) as Hinv.
  fold ls in Hinv. clearbody ls.
  destruct ls as [rb [bad fl] [f pa]].
  unfold console_bound, file_bound, stranded, close, flush, pubsync, good,
    is_open, basic_filebuf.is_open, basic_filebuf.close, basic_filebuf.sync
    in *; simpl in *.
  destruct rb, bad, fl, f; simpl in *; try done;
    by specialize (Hinv eq_refl).
Qed.

(** C6, as stated, fails: after a failed open the stream's target is the
    file buffer, not the console, and [is_open()] returns false. *)
Lemma is_open_false_on_failed_file_target :
  rdbuf after_failed_open = own_filebuf
  /\ is_open after_failed_open = false.
Proof. by vm_compute. Qed.

(** C6, amended: in every state reached from construction through [open],
    [close], insertions and flushes, [is_open()] returns true exactly when
    the stream's target is its file buffer and that buffer has a file
    open; right after an open that failed it returns false although the
    target is the file buffer. *)
Theorem is_open_iff_open_file_is_target
    (script : list (action * world)) (w : world) (filepath : string) :
  let ls := reached script in
  is_open ls = file_bound ls
  /\ (is_open ls = true <->
      rdbuf ls = own_filebuf /\ basic_filebuf.file (m_filebuf ls) <> None)
  /\ (can_open w filepath = false ->
      let ls' := (open filepath w ls).2 in
      is_open ls' = false /\ rdbuf ls' = own_filebuf).
Proof.
  intros ls. pose proof (reached_open_on_filebuf script) as Hinv.
  fold ls in Hinv. clearbody ls.
  split; [| split].
  - destruct ls as [[] st [[p|] pa]];
      unfold file_bound, is_open, basic_filebuf.is_open in *; simpl in *;
      try done. by specialize (Hinv eq_refl).
  - destruct ls as [[] st [[p|] pa]];
      unfold is_open, basic_filebuf.is_open in *; simpl in *;
      try (by specialize (Hinv eq_refl));
      split; try done; try (by intros [? ?]).
  - intros Hno. simpl. rewrite (open_refused _ _ _ Hno). simpl.
    split; [| done]. destruct (is_open ls) eqn:E; [| done].
    apply close_frame.
Qed.

(** The amended C6 at a concrete stream: the sample environment cannot open
    a path under a missing directory. *)
Lemma is_open_iff_open_file_is_target_witness :
  is_open (open "/missing/dir/app.log" sample_world (reached [])).2 = false
  /\ rdbuf (open "/missing/dir/app.log" sample_world (reached [])).2
     = own_filebuf.
Proof.
  apply (is_open_iff_open_file_is_target [] sample_world
           "/missing/dir/app.log").
  reflexivity.
Defined.

(** Outside those states: [swap] exchanges the file buffers and the stream
    states but each stream keeps its [rdbuf()], so after swapping a stream
    on an open file with one on the console the first is stranded and the
    second reports an open file while it writes to the console. *)
Lemma swap_leaves_targets_behind :
  let on_file := (open "/var/log/app.log" sample_world init).2 in
  let r := swap on_file init in
  file_bound on_file = true
  /\ stranded r.1 = true
  /\ is_open r.2 = true /\ rdbuf r.2 = clog_rdbuf.
Proof. by vm_compute. Qed.

End stream_target.

(** * One thread, one call at a time *)

Section logger_steps.

Import basic_logstream basic_logger.

Lemma store_lookup (a : nat) (w : world) (lg : basic_logger.t) (st : state) :
  objects (store a w lg st) !! a = Some lg.
Proof. unfold store; simpl. apply lookup_insert_eq. Qed.

Lemma store_lookup_ne (a b : nat) (w : world) (lg : basic_logger.t)
    (st : state) :
  a <> b -> objects (store a w lg st) !! b = objects st !! b.
Proof. intros H. unfold store; simpl. by apply lookup_insert_ne. Qed.

Lemma store_store (a : nat) (w1 w2 : world) (lg1 lg2 : basic_logger.t)
    (st : state) :
  store a w2 lg2 (store a w1 lg1 st) = store a w2 lg2 st.
Proof. unfold store; simpl. by rewrite insert_insert_eq. Qed.

Lemma store_same (a : nat) (lg : basic_logger.t) (st : state) :
  objects st !! a = Some lg -> store a (env st) lg st = st.
Proof.
  intros H. destruct st as [w objs]; unfold store; simpl in *.
  by rewrite insert_id.
Qed.

Lemma on_stream_some (a : nat)
    (f : world -> basic_logstream.t -> world * basic_logstream.t)
    (st : state) (lg : basic_logger.t) :
  objects st !! a = Some lg ->
  on_stream a f st =
    Some (store a (f (env st) (m_lstrm lg)).1
            (with_lstrm (f (env st) (m_lstrm lg)).2 lg) st).
Proof.
  intros H. unfold on_stream. rewrite H. simpl.
  by destruct (f (env st) (m_lstrm lg)).
Qed.

Lemma body_log (this : nat) (m : leveled) (msgs : list string) (st : state)
    (lg : basic_logger.t) :
  objects st !! this = Some lg ->
  body this (log m msgs) st =
    Some (if log_level.ge (severity m) (m_min_lvl_atm lg)
          then write_line this (tag m) msgs else []).
Proof.
  intros H. destruct m; simpl;
    unfold basic_logger.fatal, basic_logger.error, basic_logger.warning,
      basic_logger.info, basic_logger.trace; by rewrite H.
Qed.

(** The insertions of the arguments, one after the other, through a
    writable stream. *)
Lemma run_puts (tid a : nat) (msgs : list string) (rest : list op) :
  forall (w : world) (lg : basic_logger.t) (st : state),
    writable (m_lstrm lg) = true ->
    exists w' ls',
      run tid (map (put_text a) msgs ++ rest) (store a w lg st)
      = run tid rest (store a w' (with_lstrm ls' lg) st)
      /\ appended (cat msgs) w (m_lstrm lg) (w', ls').
Proof.
  induction msgs as [|s msgs IH]; intros w lg st Hw.
  - exists w, (m_lstrm lg). split.
    + simpl. by destruct lg.
    + unfold appended; simpl. by rewrite text_app_nil_r.
  - simpl. rewrite (on_stream_some _ _ _ lg) by apply store_lookup.
    simpl. rewrite store_store.
    pose proof (insert_appended s w (m_lstrm lg) Hw) as Hs.
    destruct (insert s w (m_lstrm lg)) as [w1 ls1]; simpl in *.
    destruct (IH w1 (with_lstrm ls1 lg) st) as (w' & ls' & Hrun & Happ);
      [apply Hs |].
    exists w', ls'. split.
    + by rewrite Hrun.
    + by apply (appended_trans _ _ _ _ (w1, ls1)).
Qed.

Lemma endl_file_exists (w : world) (ls : basic_logstream.t) (p : string) :
  writable ls = true -> rdbuf ls = own_filebuf ->
  basic_filebuf.file (m_filebuf ls) = Some p ->
  is_Some (files (endl w ls).1 !! p).
Proof.
  intros Hw Hrb Hf. destruct (writable_cases ls Hw) as [Hst _].
  destruct ls as [rb st [f pa]]; simpl in *; subst.
  unfold endl, insert, flush, good, fwrite; simpl.
  rewrite lookup_insert_eq. eauto.
Qed.

(** A whole line through a writable stream whose mutex is free. *)
Lemma run_write_line (tid this : nat) (tg : string) (msgs : list string)
    (st : state) (lg : basic_logger.t) :
  objects st !! this = Some lg ->
  m_lstrm_mtx lg = None ->
  writable (m_lstrm lg) = true ->
  exists w' ls',
    run tid (write_line this tg msgs) st
    = Some (store this w' (with_lstrm ls' lg) st)
    /\ appended (msg_prefix tid (env st) lg +:+ tg +:+ cat msgs +:+ newline)
         (env st) (m_lstrm lg) (w', ls')
    /\ flushed w' ls' = true
    /\ forall p, rdbuf (m_lstrm lg) = own_filebuf ->
         basic_filebuf.file (m_filebuf (m_lstrm lg)) = Some p ->
         files w' !! p
         = Some (target_text (env st) (m_lstrm lg)
                 +:+ msg_prefix tid (env st) lg +:+ tg +:+ cat msgs
                 +:+ newline).
Proof.
  intros Hlk Hmtx Hw.
  set (lg1 := with_mtx (Some tid) lg).
  set (pre := msg_prefix tid (env st) lg).
  (* the two insertions in front *)
  pose proof (insert_appended pre (env st) (m_lstrm lg) Hw) as H1.
  destruct (insert pre (env st) (m_lstrm lg)) as [w1 ls1] eqn:E1.
  pose proof (insert_appended tg w1 ls1 (proj1 H1)) as H2.
  destruct (insert tg w1 ls1) as [w2 ls2] eqn:E2.
  (* the arguments *)
  destruct (run_puts tid this msgs [put_endl this; unlock_stream this]
              w2 (with_lstrm ls2 lg1) st (proj1 H2))
    as (w3 & ls3 & Hrun & H3).
  simpl in H1, H2, H3.
  (* the line end *)
  destruct (endl_appended w3 ls3 (proj1 H3)) as [H4 Hfl].
  pose proof (endl_file_exists w3 ls3) as Hex.
  destruct (endl w3 ls3) as [w4 ls4] eqn:E4. simpl in H4, Hfl, Hex.
  exists w4, ls4.
  assert (Happ : appended (pre +:+ tg +:+ cat msgs +:+ newline)
                   (env st) (m_lstrm lg) (w4, ls4)).
  { apply (appended_trans _ _ _ _ (w1, ls1)); [done |].
    apply (appended_trans _ _ _ _ (w2, ls2)); [done |].
    by apply (appended_trans _ _ _ _ (w3, ls3)). }
  split; [| split; [done | split; [done |]]].
  - unfold write_line. simpl.
    rewrite Hlk. simpl. rewrite Hmtx. simpl.
    rewrite lookup_insert_eq. simpl.
    rewrite (on_stream_some _ _ _ lg1) by apply store_lookup.
    simpl.
    change (msg_prefix tid (env st) (with_mtx (Some tid) lg)) with pre.
    rewrite E1. simpl. rewrite store_store.
    rewrite (on_stream_some _ _ _ (with_lstrm ls1 lg1)) by apply store_lookup.
    simpl. rewrite E2. simpl. rewrite store_store.
    change (with_lstrm ls2 (with_lstrm ls1 lg1)) with (with_lstrm ls2 lg1).
    rewrite Hrun. simpl.
    rewrite (on_stream_some _ _ _ (with_lstrm ls3 lg1)) by apply store_lookup.
    simpl. rewrite E4. simpl. rewrite store_store.
    rewrite lookup_insert_eq. simpl.
    rewrite decide_True by done. rewrite store_store.
    f_equal. f_equal. destruct lg; simpl in *. by subst.
  - intros p Hrb Hf.
    destruct Happ as (_ & Htxt & Hrb4 & Hf4 & _).
    destruct H3 as (Hw3 & _ & Hrb3 & Hf3 & _).
    destruct H2 as (_ & _ & Hrb2 & Hf2 & _).
    destruct H1 as (_ & _ & Hrb1 & Hf1 & _).
    simpl in *.
    destruct (Hex p) as [c Hc]; [done | congruence | congruence |].
    unfold target_text in Htxt at 1. unfold flushed in Hfl.
    simpl in *. rewrite Hrb4, Hrb in *. rewrite Hf4, Hf in *.
    apply bool_decide_eq_true in Hfl. rewrite Hfl, Hc in Htxt.
    simpl in Htxt. rewrite text_app_nil_r in Htxt.
    by rewrite Hc, Htxt.
Qed.

End logger_steps.

(** * The threshold (C1, C10) *)

Section threshold.

Import basic_logstream basic_logger.

Lemma invoke_log_pass (tid this : nat) (m : leveled) (msgs : list string)
    (st : state) (lg : basic_logger.t) :
  objects st !! this = Some lg ->
  m_lstrm_mtx lg = None ->
  writable (m_lstrm lg) = true ->
  log_level.ge (severity m) (m_min_lvl_atm lg) = true ->
  exists w' ls',
    invoke tid this (log m msgs) st
    = Some (this, store this w' (with_lstrm ls' lg) st)
    /\ appended (line_of tid (env st) lg m msgs) (env st) (m_lstrm lg) (w', ls')
    /\ flushed w' ls' = true
    /\ forall p, rdbuf (m_lstrm lg) = own_filebuf ->
         basic_filebuf.file (m_filebuf (m_lstrm lg)) = Some p ->
         files w' !! p
         = Some (target_text (env st) (m_lstrm lg)
                 +:+ line_of tid (env st) lg m msgs).
Proof.
  intros Hlk Hmtx Hw Hge.
  destruct (run_write_line tid this (tag m) msgs st lg Hlk Hmtx Hw)
    as (w' & ls' & Hrun & Happ & Hfl & Hfile).
  exists w', ls'. unfold invoke, line_of.
  rewrite (body_log _ _ _ _ lg Hlk), Hge.
  cbn -[run write_line]. by rewrite Hrun.
Qed.

Lemma invoke_log_below (tid this : nat) (m : leveled) (msgs : list string)
    (st : state) (lg : basic_logger.t) :
  objects st !! this = Some lg ->
  log_level.ge (severity m) (m_min_lvl_atm lg) = false ->
  body this (log m msgs) st = Some []
  /\ invoke tid this (log m msgs) st = Some (this, st).
Proof.
  intros Hlk Hge. unfold invoke.
  by rewrite (body_log _ _ _ _ lg Hlk), Hge.
Qed.

Lemma line_of_not_empty (tid : nat) (w : world) (lg : basic_logger.t)
    (m : leveled) (msgs : list string) :
  line_of tid w lg m msgs <> "".
Proof. unfold line_of, msg_prefix. by rewrite !text_app_cons. Qed.

Lemma ge_underlying (a b : log_level.t) :
  log_level.ge a b = true
  <-> (log_level.underlying b <= log_level.underlying a)%Z.
Proof. unfold log_level.ge. apply Z.leb_le. Qed.

(** C1: a leveled call with severity L on a logger with threshold T, whose
    stream accepts characters, sends its line to the stream's target if and
    only if L >= T in the order Trace < Info < Warn < Error < Fatal < None
    of the underlying values; below the threshold the call changes
    nothing, and so with threshold None for all five entry points. *)
Theorem written_iff_severity_at_least_threshold
    (tid this : nat) (m : leveled) (msgs : list string)
    (st : state) (lg : basic_logger.t) :
  objects st !! this = Some lg ->
  m_lstrm_mtx lg = None ->
  writable (m_lstrm lg) = true ->
  log_level.underlying <$>
    [log_level.Trace; log_level.Info; log_level.Warn; log_level.Error;
     log_level.Fatal; log_level.None]
  = [0; 1; 2; 3; 4; 5]%Z
  /\ exists st',
      invoke tid this (log m msgs) st = Some (this, st')
      /\ (text_at this st'
          = Some (target_text (env st) (m_lstrm lg)
                  +:+ line_of tid (env st) lg m msgs)
          <-> (log_level.underlying (m_min_lvl_atm lg)
               <= log_level.underlying (severity m))%Z)
      /\ ((log_level.underlying (severity m)
           < log_level.underlying (m_min_lvl_atm lg))%Z -> st' = st)
      /\ (m_min_lvl_atm lg = log_level.None -> st' = st).
Proof.
  intros Hlk Hmtx Hw. split; [done |].
  destruct (log_level.ge (severity m) (m_min_lvl_atm lg)) eqn:Hge.
  - destruct (invoke_log_pass tid this m msgs st lg Hlk Hmtx Hw Hge)
      as (w' & ls' & Hinv & Happ & _).
    apply ge_underlying in Hge.
    eexists. split; [exact Hinv |]. split; [| split].
    + split; [done |]. intros _. unfold text_at.
      rewrite store_lookup. simpl. f_equal. apply Happ.
    + lia.
    + intros HT. rewrite HT in Hge. destruct m; simpl in Hge; lia.
  - destruct (invoke_log_below tid this m msgs st lg Hlk Hge) as [_ Hinv].
    assert (Hlt : (log_level.underlying (severity m)
                   < log_level.underlying (m_min_lvl_atm lg))%Z).
    { unfold log_level.ge in Hge. by apply Z.leb_gt in Hge. }
    exists st. split; [exact Hinv |]. split; [| done].
    split; [| lia]. unfold text_at. rewrite Hlk. simpl.
    intros [= Heq]. symmetry in Heq. apply text_app_same_nil in Heq.
    by apply line_of_not_empty in Heq.
Qed.

(** C10: a leveled call whose severity is strictly below the threshold
    takes no step at all (so none that locks the mutex, whoever holds it),
    leaves every logger and the environment as they were, and returns the
    address of the logger it was called on. *)
Theorem suppressed_call_changes_nothing
    (tid this : nat) (m : leveled) (msgs : list string)
    (st : state) (lg : basic_logger.t) :
  objects st !! this = Some lg ->
  (log_level.underlying (severity m)
   < log_level.underlying (m_min_lvl_atm lg))%Z ->
  body this (log m msgs) st = Some []
  /\ invoke tid this (log m msgs) st = Some (this, st).
Proof.
  intros Hlk Hlt. apply (invoke_log_below tid this m msgs st lg Hlk).
  unfold log_level.ge. by apply Z.leb_gt.
Qed.

(** C1 for an error logged at threshold Warn. *)
Lemma written_iff_severity_at_least_threshold_witness :
  exists st',
    invoke 42 7 (log Error ["y"]) (sample_state slug.warn) = Some (7, st')
    /\ (text_at 7 st'
        = Some (target_text (env (sample_state slug.warn))
                  (m_lstrm (basic_logger.init slug.warn sample_world))
                +:+ line_of 42 (env (sample_state slug.warn))
                      (basic_logger.init slug.warn sample_world) Error ["y"])
        <-> (log_level.underlying slug.warn
             <= log_level.underlying (severity Error))%Z).
Proof.
  destruct (written_iff_severity_at_least_threshold 42 7 Error ["y"]
              (sample_state slug.warn)
              (basic_logger.init slug.warn sample_world)
              eq_refl eq_refl eq_refl)
    as (_ & st' & H1 & H2 & _).
  exists st'. split; [exact H1 | exact H2].
Defined.

(** C10 for an info message at threshold Warn. *)
Lemma suppressed_call_changes_nothing_witness :
  body 7 (log Info ["x"]) (sample_state slug.warn) = Some []
  /\ invoke 42 7 (log Info ["x"]) (sample_state slug.warn)
     = Some (7, sample_state slug.warn).
Proof.
  apply (suppressed_call_changes_nothing 42 7 Info ["x"]
           (sample_state slug.warn)
           (basic_logger.init slug.warn sample_world) eq_refl).
  reflexivity.
Defined.

End threshold.

(** * Opening and closing *)

Section open_close.

Import basic_logstream basic_logger.

Lemma extends_refl (w : world) : extends w w.
Proof. intros p c H. exists "". by rewrite text_app_nil_r. Qed.

Lemma extends_trans (w1 w2 w3 : world) :
  extends w1 w2 -> extends w2 w3 -> extends w1 w3.
Proof.
  intros H12 H23 p c H. destruct (H12 p c H) as [e1 H1].
  destruct (H23 p _ H1) as [e2 H2]. exists (e1 +:+ e2).
  by rewrite <- text_app_assoc.
Qed.

Lemma extends_fwrite (q bytes : string) (w : world) :
  extends w (fwrite q bytes w).
Proof.
  intros p c H. unfold fwrite; simpl. destruct (decide (q = p)) as [-> | Hne].
  - rewrite lookup_insert_eq, H. by exists bytes.
  - rewrite lookup_insert_ne by done. exists "". by rewrite text_app_nil_r.
Qed.

Lemma extends_with_clog (put dev : string) (w : world) :
  extends w (with_clog put dev w).
Proof. intros p c H. exists "". by rewrite text_app_nil_r. Qed.

(** Opening in an "a" mode keeps what is in the file. *)
Lemma extends_fopen_a (p : string) (w w' : world) :
  fopen p mode_a w = Some w' -> extends w w'.
Proof.
  unfold fopen. destruct (can_open w p); [| done].
  destruct (files w !! p) eqn:E; intros [= <-]; [apply extends_refl |].
  intros q c H. simpl. exists "". rewrite text_app_nil_r.
  rewrite lookup_insert_ne; [done | congruence].
Qed.

Lemma flags_append : fopen_mode_of flags = Some mode_a.
Proof. reflexivity. Qed.

(** No member call of the stream shortens a file. *)
Lemma apply_extends (a : action) (w : world) (ls : basic_logstream.t) :
  extends w (apply a w ls).1.
Proof.
  assert (Hflush : forall w ls, extends w (flush w ls).1).
  { intros w0 [rb st [f pa]]. unfold flush, pubsync, basic_filebuf.sync.
    destruct (good _); simpl; [| apply extends_refl].
    destruct rb; simpl; [apply extends_with_clog |].
    destruct f; simpl; [apply extends_fwrite | apply extends_refl]. }
  assert (Hins : forall s w ls, extends w (insert s w ls).1).
  { intros s w0 [rb st [f pa]]. unfold insert, sputn, basic_filebuf.sputn.
    destruct (good _); simpl; [| apply extends_refl].
    destruct rb; simpl; [apply extends_with_clog |].
    destruct f; simpl; apply extends_refl. }
  assert (Hclose : forall w ls, extends w (close w ls).1).
  { intros w0 ls0. unfold close.
    pose proof (Hflush w0 ls0) as H1.
    destruct (flush w0 ls0) as [w1 ls1]; simpl in H1.
    destruct (is_open ls1); simpl; [| done].
    unfold basic_filebuf.close.
    destruct (basic_filebuf.file (m_filebuf ls1)); simpl; [| done].
    eapply extends_trans; [exact H1 | apply extends_fwrite]. }
  destruct a; simpl; auto.
  - (* open *)
    unfold open.
    assert (H1 : extends w (if is_open ls then close w ls else (w, ls)).1).
    { destruct (is_open ls); [apply Hclose | apply extends_refl]. }
    destruct (if is_open ls then close w ls else (w, ls)) as [w1 ls1].
    simpl in H1. unfold basic_filebuf.open.
    destruct (basic_filebuf.is_open (m_filebuf ls1)).
    + pose proof (Hflush w1 (setstate ios.only_failbit
                               (with_filebuf (m_filebuf ls1) ls1))) as H2.
      destruct (flush _ _) as [w4 ls4]; simpl in *.
      by eapply extends_trans.
    + rewrite flags_append.
      destruct (fopen filepath mode_a w1) as [w2 |] eqn:E.
      * pose proof (Hflush w2 (with_filebuf
                                 {| basic_filebuf.file := Some filepath;
                                    basic_filebuf.put_area := "" |} ls1)) as H2.
        destruct (flush _ _) as [w4 ls4]; simpl in *.
        eapply extends_trans; [exact H1 |].
        eapply extends_trans; [by eapply extends_fopen_a | done].
      * pose proof (Hflush w1 (setstate ios.only_failbit
                                 (with_filebuf (m_filebuf ls1) ls1))) as H2.
        destruct (flush _ _) as [w4 ls4]; simpl in *.
        by eapply extends_trans.
  - (* endl *)
    unfold endl. pose proof (Hins newline w ls) as H1.
    destruct (insert newline w ls) as [w1 ls1]; simpl in *.
    eapply extends_trans; [exact H1 | apply Hflush].
Qed.

(** An open that the environment grants, on a stream with no file open:
    the stream ends up good, on the newly opened file, with nothing
    buffered, and the file holds what it held (nothing if it is new). *)
Lemma open_granted (filepath : string) (w : world) (ls : basic_logstream.t) :
  can_open w filepath = true ->
  is_open ls = false ->
  let r := open filepath w ls in
  writable r.2 = true
  /\ rdbuf r.2 = own_filebuf
  /\ m_filebuf r.2 = {| basic_filebuf.file := Some filepath;
                        basic_filebuf.put_area := "" |}
  /\ files r.1 !! filepath = Some (default "" (files w !! filepath))
  /\ steady_clock r.1 = steady_clock w
  /\ can_open r.1 = can_open w.
Proof.
  intros Hcan Hno. destruct ls as [rb [bad fl] [f pa]].
  unfold is_open, basic_filebuf.is_open in Hno; simpl in Hno.
  destruct f; [done |].
  unfold open, is_open, basic_filebuf.is_open, basic_filebuf.open; simpl.
  unfold fopen. rewrite Hcan.
  destruct (files w !! filepath) as [c |] eqn:E; simpl;
    unfold flush, good, pubsync, basic_filebuf.sync, fwrite; simpl;
    destruct rb, bad, fl; simpl;
    rewrite ?lookup_insert_eq, ?E; simpl; rewrite ?text_app_nil_r; done.
Qed.

(** On a stranded stream nothing but a granted [open] has any effect on
    the environment, and the stream stays stranded. *)
Lemma stranded_absorbs (a : action) (w : world) (ls : basic_logstream.t) :
  stranded ls = true ->
  match a with do_open _ => True | _ =>
    (apply a w ls).1 = w /\ stranded (apply a w ls).2 = true
  end.
Proof.
  destruct ls as [rb [bad fl] [f pa]].
  unfold stranded, is_open, basic_filebuf.is_open; simpl.
  destruct rb, f; simpl; try done; intros _.
  destruct a; try done;
    unfold apply, close, endl, insert, flush, pubsync, sputn, good, stranded,
      is_open, basic_filebuf.is_open, basic_filebuf.sync,
      basic_filebuf.sputn; simpl;
    destruct bad, fl; simpl; try done;
    repeat (case_bool_decide; simpl); done.
Qed.

(** [close()] twice is [close()] once for the stream; the second call can
    at most move buffered console characters on to the console. *)
Lemma close_close (w : world) (ls : basic_logstream.t) :
  let r1 := close w ls in
  let r2 := close r1.1 r1.2 in
  r2.2 = r1.2
  /\ files r2.1 = files r1.1
  /\ console r2.1 +:+ clog_put r2.1 = console r1.1 +:+ clog_put r1.1
  /\ console_bound r1.2 = negb (stranded ls).
Proof.
  destruct ls as [rb [bad fl] [f pa]].
  unfold close, flush, pubsync, good, console_bound, stranded, is_open,
    basic_filebuf.is_open, basic_filebuf.close, basic_filebuf.sync; simpl.
  destruct rb, bad, fl, f; simpl; rewrite ?text_app_nil_r; done.
Qed.

Lemma exec_lock (tid a : nat) (st : state) (lg : basic_logger.t) :
  objects st !! a = Some lg ->
  m_lstrm_mtx lg = None ->
  exec tid (lock_stream a) st
  = Some (store a (env st) (with_mtx (Some tid) lg) st).
Proof. intros Hlk Hmtx. simpl. rewrite Hlk. simpl. by rewrite Hmtx. Qed.

Lemma exec_unlock (tid a : nat) (st : state) (lg : basic_logger.t) :
  objects st !! a = Some lg ->
  m_lstrm_mtx lg = Some tid ->
  exec tid (unlock_stream a) st
  = Some (store a (env st) (with_mtx None lg) st).
Proof.
  intros Hlk Hmtx. simpl. rewrite Hlk. simpl.
  by rewrite decide_True.
Qed.

Lemma invoke_locked_call (tid this : nat) (o : op)
    (f : world -> basic_logstream.t -> world * basic_logstream.t)
    (st : state) (lg : basic_logger.t) :
  objects st !! this = Some lg ->
  m_lstrm_mtx lg = None ->
  (forall st', exec tid o st' = on_stream this f st') ->
  run tid [lock_stream this; o; unlock_stream this] st
  = Some (store this (f (env st) (m_lstrm lg)).1
            (with_lstrm (f (env st) (m_lstrm lg)).2 lg) st).
Proof.
  intros Hlk Hmtx Hexec. cbn -[exec].
  rewrite (exec_lock _ _ _ lg) by done. cbn -[exec].
  rewrite Hexec.
  rewrite (on_stream_some _ _ _ (with_mtx (Some tid) lg)) by apply store_lookup.
  cbn -[exec]. rewrite store_store.
  erewrite exec_unlock; [| apply store_lookup | done].
  cbn. rewrite store_store.
  f_equal. f_equal. destruct lg; simpl in *. by subst.
Qed.

Lemma invoke_open (tid this : nat) (filepath : string) (st : state)
    (lg : basic_logger.t) :
  objects st !! this = Some lg ->
  m_lstrm_mtx lg = None ->
  invoke tid this (open_ filepath) st
  = Some (this,
          store this (open filepath (env st) (m_lstrm lg)).1
            (with_lstrm (open filepath (env st) (m_lstrm lg)).2 lg) st).
Proof.
  intros Hlk Hmtx. unfold invoke, body, open_file. rewrite Hlk.
  cbn -[run]. by rewrite (invoke_locked_call _ _ _ (open filepath) _ lg).
Qed.

Lemma invoke_close (tid this : nat) (st : state) (lg : basic_logger.t) :
  objects st !! this = Some lg ->
  m_lstrm_mtx lg = None ->
  invoke tid this close_ st
  = Some (this,
          store this (close (env st) (m_lstrm lg)).1
            (with_lstrm (close (env st) (m_lstrm lg)).2 lg) st).
Proof.
  intros Hlk Hmtx. unfold invoke, body, close_file. rewrite Hlk.
  cbn -[run]. by rewrite (invoke_locked_call _ _ _ close _ lg).
Qed.

End open_close.

(** * A failed open (C3) *)

Section failed_open.

Import basic_logstream basic_logger.

Lemma bind_Some {A B : Type} (x : A) (f : A -> option B) : Some x ≫= f = f x.
Proof. reflexivity. Qed.

Lemma run_cons (tid : nat) (o : op) (rest : list op) (st : state) :
  run tid (o :: rest) st = exec tid o st ≫= run tid rest.
Proof. reflexivity. Qed.

Lemma exec_put_text (tid a : nat) (s : string) (st : state)
    (lg : basic_logger.t) :
  objects st !! a = Some lg ->
  exec tid (put_text a s) st
  = Some (store a (insert s (env st) (m_lstrm lg)).1
            (with_lstrm (insert s (env st) (m_lstrm lg)).2 lg) st).
Proof. intros H. by apply on_stream_some. Qed.

Lemma exec_put_prefix (tid a : nat) (st : state) (lg : basic_logger.t) :
  objects st !! a = Some lg ->
  exec tid (put_prefix a) st
  = Some (store a
            (insert (msg_prefix tid (env st) lg) (env st) (m_lstrm lg)).1
            (with_lstrm
               (insert (msg_prefix tid (env st) lg) (env st) (m_lstrm lg)).2
               lg) st).
Proof.
  intros H. unfold exec. rewrite H. rewrite bind_Some.
  by apply on_stream_some.
Qed.

Lemma exec_put_endl (tid a : nat) (st : state) (lg : basic_logger.t) :
  objects st !! a = Some lg ->
  exec tid (put_endl a) st
  = Some (store a (endl (env st) (m_lstrm lg)).1
            (with_lstrm (endl (env st) (m_lstrm lg)).2 lg) st).
Proof. intros H. by apply on_stream_some. Qed.

Lemma run_puts_stranded (tid a : nat) (msgs : list string) (rest : list op) :
  forall (w : world) (lg : basic_logger.t) (st : state),
    stranded (m_lstrm lg) = true ->
    exists ls',
      run tid (map (put_text a) msgs ++ rest) (store a w lg st)
      = run tid rest (store a w (with_lstrm ls' lg) st)
      /\ stranded ls' = true.
Proof.
  induction msgs as [|s msgs IH]; intros w lg st Hs.
  - exists (m_lstrm lg). split; [| done]. simpl. by destruct lg.
  - simpl. rewrite (on_stream_some _ _ _ lg) by apply store_lookup.
    simpl. rewrite store_store.
    destruct (stranded_absorbs (do_insert s) w (m_lstrm lg) Hs) as [Hw Hs'].
    simpl in Hw, Hs'. rewrite Hw.
    destruct (IH w (with_lstrm (insert s w (m_lstrm lg)).2 lg) st Hs')
      as (ls' & Hrun & Hs'').
    exists ls'. split; [| done]. by rewrite Hrun.
Qed.

(** A leveled call on a stranded stream: whatever its level, the
    environment stays as it is and the stream stays stranded. *)
Lemma invoke_log_stranded (tid this : nat) (m : leveled) (msgs : list string)
    (st : state) (lg : basic_logger.t) :
  objects st !! this = Some lg ->
  m_lstrm_mtx lg = None ->
  stranded (m_lstrm lg) = true ->
  exists ls',
    invoke tid this (log m msgs) st
    = Some (this, store this (env st) (with_lstrm ls' lg) st)
    /\ stranded ls' = true.
Proof.
  intros Hlk Hmtx Hs. unfold invoke. rewrite (body_log _ _ _ _ lg Hlk).
  destruct (log_level.ge _ _).
  - set (lg1 := with_mtx (Some tid) lg).
    destruct (stranded_absorbs (do_insert (msg_prefix tid (env st) lg))
                (env st) (m_lstrm lg) Hs) as [Hw1 Hs1].
    simpl in Hw1, Hs1.
    set (ls1 := (insert (msg_prefix tid (env st) lg) (env st) (m_lstrm lg)).2)
      in *.
    destruct (stranded_absorbs (do_insert (tag m)) (env st) ls1 Hs1)
      as [Hw2 Hs2].
    simpl in Hw2, Hs2. set (ls2 := (insert (tag m) (env st) ls1).2) in *.
    destruct (run_puts_stranded tid this msgs
                [put_endl this; unlock_stream this]
                (env st) (with_lstrm ls2 lg1) st Hs2) as (ls3 & Hrun & Hs3).
    destruct (stranded_absorbs do_endl (env st) ls3 Hs3) as [Hw4 Hs4].
    simpl in Hw4, Hs4.
    exists (endl (env st) ls3).2. split; [| done]. subst lg1.
    rewrite bind_Some. unfold write_line.
    change ([lock_stream this; put_prefix this; put_text this (tag m)]
              ++ map (put_text this) msgs
              ++ [put_endl this; unlock_stream this])
      with (lock_stream this :: put_prefix this :: put_text this (tag m)
              :: (map (put_text this) msgs
                    ++ [put_endl this; unlock_stream this])).
    (* the lock, then the prefix *)
    rewrite run_cons, (exec_lock _ _ _ lg), bind_Some by done.
    rewrite run_cons, (exec_put_prefix _ _ _ (with_mtx (Some tid) lg)),
      bind_Some by apply store_lookup.
    change (env (store this (env st) (with_mtx (Some tid) lg) st))
      with (env st).
    change (msg_prefix tid (env st) (with_mtx (Some tid) lg))
      with (msg_prefix tid (env st) lg).
    change (m_lstrm (with_mtx (Some tid) lg)) with (m_lstrm lg).
    rewrite Hw1. fold ls1. rewrite store_store.
    (* the tag *)
    rewrite run_cons,
      (exec_put_text _ _ _ _ (with_lstrm ls1 (with_mtx (Some tid) lg))),
      bind_Some by apply store_lookup.
    change (env (store this (env st)
                   (with_lstrm ls1 (with_mtx (Some tid) lg)) st))
      with (env st).
    change (m_lstrm (with_lstrm ls1 (with_mtx (Some tid) lg))) with ls1.
    rewrite Hw2. fold ls2. rewrite store_store.
    change (with_lstrm ls2 (with_lstrm ls1 (with_mtx (Some tid) lg)))
      with (with_lstrm ls2 (with_mtx (Some tid) lg)).
    (* the arguments, the line end, the unlock *)
    rewrite Hrun.
    rewrite run_cons,
      (exec_put_endl _ _ _
         (with_lstrm ls3 (with_lstrm ls2 (with_mtx (Some tid) lg)))),
      bind_Some by apply store_lookup.
    change (env (store this (env st)
                   (with_lstrm ls3
                      (with_lstrm ls2 (with_mtx (Some tid) lg))) st))
      with (env st).
    change (m_lstrm (with_lstrm ls3
                       (with_lstrm ls2 (with_mtx (Some tid) lg))))
      with ls3.
    rewrite Hw4, store_store.
    rewrite run_cons. erewrite exec_unlock; [| apply store_lookup | done].
    rewrite bind_Some. simpl run. rewrite store_store. rewrite bind_Some.
    f_equal. f_equal. f_equal. destruct lg; simpl in *. by subst.
  - exists (m_lstrm lg). split; [| done]. simpl.
    f_equal. f_equal. rewrite <- (store_same this lg st Hlk) at 1.
    by destruct lg.
Qed.

Lemma line_of_same (tid : nat) (w w' : world) (lg lg' : basic_logger.t)
    (m : leveled) (msgs : list string) :
  steady_clock w' = steady_clock w ->
  m_start_time lg' = m_start_time lg ->
  line_of tid w' lg' m msgs = line_of tid w lg m msgs.
Proof.
  intros Hc Hs.
  unfold line_of, msg_prefix, elapsed_time, current_time.
  by rewrite Hc, Hs.
Qed.

Lemma stranded_at_store (a : nat) (w : world) (lg : basic_logger.t)
    (st : state) :
  stranded_at a (store a w lg st) = stranded (m_lstrm lg).
Proof. unfold stranded_at. by rewrite store_lookup. Qed.

(** C3, as stated, fails: an open on a path under a missing directory
    leaves the stream reporting no failure ([fail()] is false once [open]
    returns), and a [close_file] after it recovers nothing: the next
    error line is sent nowhere. *)
Lemma close_does_not_recover_failed_open :
  exists st1 st2 st3 lg1,
    invoke 1 7 (open_ "/missing/dir/app.log") (sample_state slug.info)
    = Some (7, st1)
    /\ objects st1 !! 7 = Some lg1
    /\ basic_logstream.fail (m_lstrm lg1) = false
    /\ invoke 1 7 close_ st1 = Some (7, st2)
    /\ invoke 1 7 (log Error ["y"]) st2 = Some (7, st3)
    /\ env st3 = env (sample_state slug.info).
Proof.
  do 4 eexists.
  split; [by vm_compute |]. split; [by vm_compute |].
  split; [by vm_compute |]. split; [by vm_compute |].
  split; by vm_compute.
Qed.

(** C3, amended: after an open on a path that cannot be opened the stream
    stands on its closed file buffer; a leveled call at or above the threshold
    then changes nothing in the environment (no file, no console
    character) and returns normally, [close_file] changes nothing either
    and leaves the stream stranded, and a later [open_file] on a path that
    can be opened recovers it: the next leveled call appends its line to
    that file. *)
Theorem failed_open_drops_lines_until_reopened
    (tid this : nat) (bad ok : string) (m : leveled) (msgs : list string)
    (st : state) (lg : basic_logger.t) :
  objects st !! this = Some lg ->
  m_lstrm_mtx lg = None ->
  can_open (env st) bad = false ->
  can_open (env st) ok = true ->
  log_level.ge (severity m) (m_min_lvl_atm lg) = true ->
  exists st1 st2 st3 st4 st5,
    invoke tid this (open_ bad) st = Some (this, st1)
    /\ stranded_at this st1 = true
    /\ invoke tid this (log m msgs) st1 = Some (this, st2)
    /\ env st2 = env st1 /\ stranded_at this st2 = true
    /\ invoke tid this close_ st2 = Some (this, st3)
    /\ env st3 = env st1 /\ stranded_at this st3 = true
    /\ invoke tid this (open_ ok) st3 = Some (this, st4)
    /\ invoke tid this (log m msgs) st4 = Some (this, st5)
    /\ files (env st5) !! ok
       = Some (default "" (files (env st1) !! ok)
               +:+ line_of tid (env st) lg m msgs).
Proof.
  intros Hlk Hmtx Hbad Hok Hge.
  (* the refused open *)
  pose proof (invoke_open tid this bad st lg Hlk Hmtx) as H1.
  rewrite (open_refused _ _ _ Hbad) in H1.
  set (r := if is_open (m_lstrm lg) then close (env st) (m_lstrm lg)
            else (env st, m_lstrm lg)) in H1.
  assert (Hr : is_open r.2 = false /\ can_open r.1 = can_open (env st)
               /\ steady_clock r.1 = steady_clock (env st)).
  { subst r. destruct (is_open (m_lstrm lg)) eqn:E; [apply close_frame |].
    split; [exact E | done]. }
  destruct Hr as (Hr1 & Hr2 & Hr3).
  simpl in H1.
  set (lg1 := with_lstrm (set_rdbuf own_filebuf r.2) lg) in H1.
  set (st1 := store this r.1 lg1 st) in H1.
  assert (Hs1 : stranded (m_lstrm lg1) = true).
  { subst lg1. unfold stranded, is_open in *. simpl. by rewrite Hr1. }
  (* the dropped line *)
  destruct (invoke_log_stranded tid this m msgs st1 lg1)
    as (ls2 & H2 & Hs2); [apply store_lookup | done | done |].
  subst st1. rewrite store_store in H2. simpl in H2.
  set (lg2 := with_lstrm ls2 lg1) in H2.
  set (st2 := store this r.1 lg2 st) in H2.
  (* close_file *)
  pose proof (invoke_close tid this st2 lg2 (store_lookup _ _ _ _) Hmtx) as H3.
  destruct (stranded_absorbs do_close (env st2) (m_lstrm lg2) Hs2)
    as [Hw3 Hs3].
  cbn [apply] in Hw3, Hs3. rewrite Hw3 in H3.
  subst st2. rewrite store_store in H3.
  change (env (store this r.1 lg2 st)) with r.1 in *.
  change (m_lstrm lg2) with ls2 in *.
  set (lg3 := with_lstrm (close r.1 ls2).2 lg2) in H3.
  set (st3 := store this r.1 lg3 st) in H3.
  (* the granted open *)
  pose proof (invoke_open tid this ok st3 lg3 (store_lookup _ _ _ _) Hmtx)
    as H4.
  assert (Hno3 : is_open (m_lstrm lg3) = false).
  { unfold stranded in Hs3. simpl.
    destruct (rdbuf _); [done |]. by apply negb_true_iff. }
  destruct (open_granted ok (env st3) (m_lstrm lg3))
    as (Hw4 & Hrb4 & Hfb4 & Hf4 & Hc4 & _); [by rewrite <- Hr2 in Hok | done |].
  subst st3. rewrite store_store in H4. simpl in H4, Hw4, Hrb4, Hfb4, Hf4, Hc4.
  set (r4 := open ok r.1 (close r.1 ls2).2) in *.
  set (lg4 := with_lstrm r4.2 lg3) in H4.
  set (st4 := store this r4.1 lg4 st) in H4.
  (* the line that arrives *)
  destruct (invoke_log_pass tid this m msgs st4 lg4)
    as (w5 & ls5 & H5 & _ & _ & Hfile); [apply store_lookup | done.. |].
  specialize (Hfile ok Hrb4). simpl in Hfile.
  rewrite Hfb4 in Hfile. specialize (Hfile eq_refl).
  exists (store this r.1 lg1 st), (store this r.1 lg2 st),
    (store this r.1 lg3 st), st4, (store this w5 (with_lstrm ls5 lg4) st4).
  rewrite !stranded_at_store.
  repeat split; try done.
  simpl. rewrite Hfile. f_equal.
  unfold target_text. rewrite Hrb4, Hfb4. simpl.
  rewrite Hf4. simpl. rewrite text_app_nil_r. f_equal.
  apply line_of_same; [| done]. simpl. by rewrite Hc4.
Qed.

(** The amended C3 in the sample environment: the directory of the first
    path is missing, the second path can be opened. *)
Lemma failed_open_drops_lines_until_reopened_witness :
  exists st1 st5,
    invoke 1 7 (open_ "/missing/dir/app.log") (sample_state slug.info)
    = Some (7, st1)
    /\ files (env st5) !! "/var/log/app.log"
       = Some (default "" (files (env st1) !! "/var/log/app.log")
               +:+ line_of 1 (env (sample_state slug.info))
                     (basic_logger.init slug.info sample_world)
                     Error ["y"]).
Proof.
  destruct (failed_open_drops_lines_until_reopened 1 7
              "/missing/dir/app.log" "/var/log/app.log" Error ["y"]
              (sample_state slug.info)
              (basic_logger.init slug.info sample_world)
              eq_refl eq_refl eq_refl eq_refl eq_refl)
    as (st1 & st2 & st3 & st4 & st5 & H1 & _ & _ & _ & _ & _ & _ & _ & _ & _
        & H5).
  exists st1, st5. by split.
Defined.

End failed_open.

(** * The shape of a line (C5) *)

Section line_shape.

Import basic_logstream basic_logger.

Lemma line_of_shape (tid : nat) (w : world) (lg : basic_logger.t)
    (m : leveled) (msgs : list string) :
  line_of tid w lg m msgs
  = spec_line (setw 5 (pretty tid))
      (fixed3 (steady_clock w - m_start_time lg)) (tag m) msgs.
Proof.
  unfold line_of, spec_line, msg_prefix, elapsed_time, current_time.
  rewrite !text_app_assoc. reflexivity.
Qed.

(** C5, as stated, fails: thread 42 logging "x" at level Info two
    milliseconds after construction emits a line whose thread-id field is
    padded to five characters, not the line of the stated shape. *)
Lemma short_thread_id_is_padded :
  exists st',
    invoke 42 7 (log Info ["x"]) (sample_state slug.info) = Some (7, st')
    /\ text_at 7 st' = Some ("[   42, 0.002] INFO:  x" +:+ newline)
    /\ text_at 7 st' <> Some (spec_line (pretty 42) "0.002" "INFO:  " ["x"]).
Proof.
  eexists. split; [by vm_compute |]. split; by vm_compute.
Qed.

(** C5, amended: every line emitted through a stream that accepts
    characters is "[", the thread id right-aligned in a field of at least
    five characters (padded with spaces on the left), ", ", the elapsed
    seconds with three decimals, "] ", the tag of the entry point (one of
    "FATAL: ", "ERROR: ", "WARN:  ", "INFO:  ", "TRACE: "), the arguments
    in order with nothing between them, and a line end after which nothing
    is left in the buffer; when the id has five characters or more the
    field is the id itself. *)
Theorem line_shape_with_padded_thread_id
    (tid this : nat) (m : leveled) (msgs : list string)
    (st : state) (lg : basic_logger.t) :
  objects st !! this = Some lg ->
  m_lstrm_mtx lg = None ->
  writable (m_lstrm lg) = true ->
  (log_level.underlying (m_min_lvl_atm lg)
   <= log_level.underlying (severity m))%Z ->
  let leveltag :=
    match m with
    | Fatal => "FATAL: "
    | Error => "ERROR: "
    | Warning => "WARN:  "
    | Info => "INFO:  "
    | Trace => "TRACE: "
    end in
  let elapsed := fixed3 (steady_clock (env st) - m_start_time lg) in
  exists st' lg',
    invoke tid this (log m msgs) st = Some (this, st')
    /\ objects st' !! this = Some lg'
    /\ text_at this st'
       = Some (target_text (env st) (m_lstrm lg)
               +:+ spec_line (setw 5 (pretty tid)) elapsed leveltag msgs)
    /\ flushed (env st') (m_lstrm lg') = true
    /\ (5 <= String.length (pretty tid) ->
        spec_line (setw 5 (pretty tid)) elapsed leveltag msgs
        = spec_line (pretty tid) elapsed leveltag msgs).
Proof.
  intros Hlk Hmtx Hw Hge leveltag elapsed.
  apply ge_underlying in Hge.
  destruct (invoke_log_pass tid this m msgs st lg Hlk Hmtx Hw Hge)
    as (w' & ls' & Hinv & Happ & Hfl & _).
  exists (store this w' (with_lstrm ls' lg) st), (with_lstrm ls' lg).
  split; [done |]. split; [apply store_lookup |].
  split; [| split; [done |]].
  - unfold text_at. rewrite store_lookup. simpl. f_equal.
    destruct Happ as (_ & Htxt & _). simpl in Htxt. rewrite Htxt. f_equal.
    rewrite line_of_shape. by destruct m.
  - intros Hlen. by rewrite setw_wide.
Qed.

(** The amended C5 for thread 4321 warning about a disk. *)
Lemma line_shape_with_padded_thread_id_witness :
  exists st',
    invoke 4321 7 (log Warning ["disk"; " "; "low"]) (sample_state slug.trace)
    = Some (7, st')
    /\ text_at 7 st'
       = Some ("" +:+ spec_line (setw 5 (pretty 4321)) (fixed3 2) "WARN:  "
                        ["disk"; " "; "low"]).
Proof.
  destruct (line_shape_with_padded_thread_id 4321 7 Warning
              ["disk"; " "; "low"] (sample_state slug.trace)
              (basic_logger.init slug.trace sample_world)
              eq_refl eq_refl eq_refl)
    as (st' & lg' & H1 & _ & H2 & _).
  - vm_compute. discriminate.
  - exists st'. split; [exact H1 | exact H2].
Defined.

End line_shape.

(** * Closing twice (C7) *)

Section close_twice.

Import basic_logstream basic_logger.

(** C7, as stated, fails on the end state: after an open that failed,
    [close_file] once or twice leaves the stream on its closed file buffer,
    not on the console. *)
Lemma close_file_twice_after_failed_open_not_on_console :
  exists st1 st2 st3 lg3,
    invoke 1 7 (open_ "/missing/dir/app.log") (sample_state slug.info)
    = Some (7, st1)
    /\ invoke 1 7 close_ st1 = Some (7, st2)
    /\ invoke 1 7 close_ st2 = Some (7, st3)
    /\ objects st3 !! 7 = Some lg3
    /\ console_bound (m_lstrm lg3) = false
    /\ rdbuf (m_lstrm lg3) = own_filebuf.
Proof.
  do 4 eexists.
  split; [by vm_compute |]. split; [by vm_compute |].
  split; [by vm_compute |]. split; [by vm_compute |]. split; by vm_compute.
Qed.

(** C7, amended: from any logger state with its mutex free, [close_file]
    twice in a row ends in the same logger state as [close_file] once, with
    the same files and the same console text; that end state is on the
    console exactly when the stream was not stranded on its closed file
    buffer to begin with. *)
Theorem close_file_twice_same_as_once
    (tid this : nat) (st : state) (lg : basic_logger.t) :
  objects st !! this = Some lg ->
  m_lstrm_mtx lg = None ->
  exists st1 st2 lg1,
    invoke tid this close_ st = Some (this, st1)
    /\ invoke tid this close_ st1 = Some (this, st2)
    /\ objects st2 = objects st1
    /\ files (env st2) = files (env st1)
    /\ console (env st2) +:+ clog_put (env st2)
       = console (env st1) +:+ clog_put (env st1)
    /\ objects st1 !! this = Some lg1
    /\ console_bound (m_lstrm lg1) = negb (stranded (m_lstrm lg)).
Proof.
  intros Hlk Hmtx.
  pose proof (invoke_close tid this st lg Hlk Hmtx) as H1.
  destruct (close_close (env st) (m_lstrm lg)) as (Hc1 & Hc2 & Hc3 & Hc4).
  set (r1 := close (env st) (m_lstrm lg)) in *.
  set (lg1 := with_lstrm r1.2 lg) in *.
  pose proof (invoke_close tid this (store this r1.1 lg1 st) lg1
                (store_lookup _ _ _ _) Hmtx) as H2.
  change (env (store this r1.1 lg1 st)) with r1.1 in H2.
  change (m_lstrm lg1) with r1.2 in H2.
  set (r2 := close r1.1 r1.2) in *.
  rewrite store_store in H2.
  exists (store this r1.1 lg1 st), (store this r2.1 (with_lstrm r2.2 lg1) st),
    lg1.
  split; [done |]. split; [done |].
  split; [| split; [done | split; [done | split; [apply store_lookup | done]]]].
  simpl. by rewrite Hc1.
Qed.

(** The amended C7 on the sample logger. *)
Lemma close_file_twice_same_as_once_witness :
  exists st1 st2,
    invoke 1 7 close_ (sample_state slug.info) = Some (7, st1)
    /\ invoke 1 7 close_ st1 = Some (7, st2)
    /\ objects st2 = objects st1.
Proof.
  destruct (close_file_twice_same_as_once 1 7 (sample_state slug.info)
              (basic_logger.init slug.info sample_world) eq_refl eq_refl)
    as (st1 & st2 & lg1 & H1 & H2 & H3 & _).
  by exists st1, st2.
Defined.

End close_twice.

(** * Append mode (C8) *)

Section append_mode.

Import basic_logstream basic_logger.

Lemma on_stream_env (a : nat)
    (f : world -> basic_logstream.t -> world * basic_logstream.t)
    (st st' : state) :
  on_stream a f st = Some st' -> exists ls, env st' = (f (env st) ls).1.
Proof.
  unfold on_stream. destruct (objects st !! a) as [lg |]; [| done].
  simpl. destruct (f (env st) (m_lstrm lg)) as [w ls] eqn:E.
  intros [= <-]. exists (m_lstrm lg). by rewrite E.
Qed.

Lemma exec_extends (tid : nat) (o : op) (st st' : state) :
  exec tid o st = Some st' -> extends (env st) (env st').
Proof.
  destruct o; simpl; intros H.
  - destruct (objects st !! a) as [lg |]; [| done]. simpl in H.
    destruct (m_lstrm_mtx lg); [done |]. injection H as <-.
    apply extends_refl.
  - destruct (objects st !! a) as [lg |]; [| done]. simpl in H.
    case_decide; [| done]. injection H as <-. apply extends_refl.
  - destruct (objects st !! a) as [lg |]; [| done]. simpl in H.
    apply on_stream_env in H as [ls ->].
    apply (apply_extends (do_insert _)).
  - apply on_stream_env in H as [ls ->].
    apply (apply_extends (do_insert _)).
  - apply on_stream_env in H as [ls ->]. apply (apply_extends do_endl).
  - apply on_stream_env in H as [ls ->].
    apply (apply_extends (do_open _)).
  - apply on_stream_env in H as [ls ->]. apply (apply_extends do_close).
  - destruct (objects st !! a) as [lg |]; [| done]. injection H as <-.
    apply extends_refl.
  - destruct (objects st !! a) as [la |]; [| done]. simpl in H.
    destruct (objects st !! b) as [lb |]; [| done]. injection H as <-.
    apply extends_refl.
Qed.

(** No sequence of steps of any member function shortens a file. *)
Lemma run_extends (tid : nat) (ops : list op) :
  forall st st', run tid ops st = Some st' -> extends (env st) (env st').
Proof.
  induction ops as [|o ops IH]; intros st st' H; simpl in H.
  - injection H as <-. apply extends_refl.
  - destruct (exec tid o st) as [st1 |] eqn:E; [| done]. simpl in H.
    eapply extends_trans; [by eapply exec_extends | by apply IH].
Qed.

(** C8: [open] passes binary|out|app, the mode of [fopen]'s "a"; opening a
    path that can be opened keeps every byte the file had (followed, when
    the stream had a file open, by what that close wrote out), and the
    line of the next leveled call lands behind them.  No call ever
    shortens any file. *)
Theorem open_file_appends
    (tid this : nat) (filepath content : string) (m : leveled)
    (msgs : list string) (st : state) (lg : basic_logger.t) :
  objects st !! this = Some lg ->
  m_lstrm_mtx lg = None ->
  can_open (env st) filepath = true ->
  files (env st) !! filepath = Some content ->
  log_level.ge (severity m) (m_min_lvl_atm lg) = true ->
  ios.app flags = true /\ ios.trunc flags = false
  /\ fopen_mode_of flags = Some mode_a
  /\ (forall (c : call) (st' : state),
        invoke tid this c st = Some (this, st') -> extends (env st) (env st'))
  /\ exists st1 st2 extra,
      invoke tid this (open_ filepath) st = Some (this, st1)
      /\ files (env st1) !! filepath = Some (content +:+ extra)
      /\ (is_open (m_lstrm lg) = false -> extra = "")
      /\ invoke tid this (log m msgs) st1 = Some (this, st2)
      /\ files (env st2) !! filepath
         = Some (content +:+ extra +:+ line_of tid (env st) lg m msgs).
Proof.
  intros Hlk Hmtx Hcan Hfile Hge.
  split; [done |]. split; [done |]. split; [done |]. split.
  { intros c st' H. unfold invoke in H.
    destruct (body this c st) as [ops |]; [| done]. simpl in H.
    destruct (run tid ops st) as [st1 |] eqn:E; [| done].
    injection H as <-. by eapply run_extends. }
  pose proof (invoke_open tid this filepath st lg Hlk Hmtx) as H1.
  (* first what a close of the old file does, then the open proper *)
  set (r := if is_open (m_lstrm lg) then close (env st) (m_lstrm lg)
            else (env st, m_lstrm lg)).
  assert (Hr : is_open r.2 = false /\ can_open r.1 = can_open (env st)
               /\ steady_clock r.1 = steady_clock (env st)
               /\ extends (env st) r.1
               /\ (is_open (m_lstrm lg) = false -> r.1 = env st)).
  { subst r. destruct (is_open (m_lstrm lg)) eqn:E.
    - destruct (close_frame (env st) (m_lstrm lg)) as (? & ? & ?).
      repeat split; try done.
      apply (apply_extends do_close).
    - repeat split; try done. apply extends_refl. }
  destruct Hr as (Hr1 & Hr2 & Hr3 & Hr4 & Hr5).
  assert (Hopen : open filepath (env st) (m_lstrm lg) = open filepath r.1 r.2).
  { subst r. unfold open at 1.
    destruct (is_open (m_lstrm lg)) eqn:E; simpl.
    - unfold open. rewrite Hr1. by destruct (close _ _).
    - unfold open. by rewrite E. }
  rewrite Hopen in H1.
  destruct (open_granted filepath r.1 r.2) as (Hw & Hrb & Hfb & Hf & Hc & _);
    [by rewrite Hr2 | done |].
  simpl in Hw, Hrb, Hfb, Hf, Hc.
  set (r' := open filepath r.1 r.2) in *.
  destruct (Hr4 _ _ Hfile) as [extra Hextra]. rewrite Hextra in Hf.
  simpl in Hf.
  set (lg1 := with_lstrm r'.2 lg) in *.
  destruct (invoke_log_pass tid this m msgs (store this r'.1 lg1 st) lg1)
    as (w2 & ls2 & H2 & _ & _ & Hline); [apply store_lookup | done.. |].
  specialize (Hline filepath Hrb). simpl in Hline.
  rewrite Hfb in Hline. specialize (Hline eq_refl).
  exists (store this r'.1 lg1 st), (store this w2 (with_lstrm ls2 lg1)
                                     (store this r'.1 lg1 st)), extra.
  split; [done |]. split; [done |]. split.
  { intros Hno. rewrite (Hr5 Hno) in Hextra. rewrite Hfile in Hextra.
    injection Hextra as Hx. symmetry in Hx. by apply text_app_same_nil in Hx. }
  split; [done |].
  simpl. rewrite Hline. f_equal.
  unfold target_text. rewrite Hrb, Hfb. simpl. rewrite Hf. simpl.
  rewrite text_app_nil_r, text_app_assoc. do 2 f_equal.
  apply line_of_same; [| done]. simpl. by rewrite Hc, Hr3.
Qed.

(** C8 on the sample log file, which holds a line already. *)
Lemma open_file_appends_witness :
  exists st1 st2 extra,
    invoke 1 7 (open_ "/var/log/app.log") (sample_state slug.info)
    = Some (7, st1)
    /\ files (env st1) !! "/var/log/app.log"
       = Some (("boot" +:+ newline) +:+ extra)
    /\ invoke 1 7 (log Error ["y"]) st1 = Some (7, st2).
Proof.
  destruct (open_file_appends 1 7 "/var/log/app.log" ("boot" +:+ newline)
              Error ["y"] (sample_state slug.info)
              (basic_logger.init slug.info sample_world)
              eq_refl eq_refl eq_refl eq_refl eq_refl)
    as (_ & _ & _ & _ & st1 & st2 & extra & H1 & H2 & _ & H3 & _).
  by exists st1, st2, extra.
Defined.

End append_mode.

(** * Threads sharing one logger (C2) *)

Section one_logger_many_threads.

Import basic_logstream basic_logger threads.

Variables (a : nat) (T : log_level.t) (start : Z) (text0 : string).
Variable progs : list (list (leveled * list string)).

Abbreviation Inv := (inv a T start text0 progs).
Abbreviation Phase := (phase a T start text0 progs).
Abbreviation Accounted := (accounted T progs).
Abbreviation Base := (base start text0).

Lemma calls_of_snoc (i : nat) (lines : list emitted) (l : emitted) :
  calls_of i (lines ++ [l])
  = calls_of i lines ++ (if who l =? i then [(what l, args l)] else []).
Proof.
  unfold calls_of. rewrite List.filter_app, map_app. simpl.
  by destruct (who l =? i).
Qed.

Lemma base_snoc (lines : list emitted) (l : emitted) :
  Base (lines ++ [l]) = Base lines +:+ render start l.
Proof.
  unfold base. rewrite map_app, cat_app. simpl.
  by rewrite text_app_nil_r, text_app_assoc.
Qed.

Lemma target_text_advance (d : Z) (w : world) (ls : basic_logstream.t) :
  target_text (advance d w) ls = target_text w ls.
Proof. reflexivity. Qed.

(** A thread that does not hold the mutex is not affected by what the
    holder does to the stream, nor by lines of other threads. *)
Lemma phase_of_other (i j : nat) (lg lg' : basic_logger.t) (txt txt' : string)
    (lines lines' : list emitted) (rest : list (leveled * list string))
    (ops : list op) :
  j <> i ->
  m_lstrm_mtx lg = None \/ m_lstrm_mtx lg = Some i ->
  m_lstrm_mtx lg' = None \/ m_lstrm_mtx lg' = Some i ->
  calls_of j lines' = calls_of j lines ->
  Phase j lg txt lines rest ops ->
  Phase j lg' txt' lines' rest ops.
Proof.
  intros Hne Hold Hnew Hcalls Hph.
  assert (Hnot : m_lstrm_mtx lg' <> Some j) by (destruct Hnew; congruence).
  destruct Hph
    as [Hm Hacc | m msgs Hm Hacc | m msgs Hm | m msgs clk ps Hm | Hm].
  - apply between_calls; [done |]. unfold accounted in *. congruence.
  - apply before_lock; [done |]. unfold accounted in *. congruence.
  - destruct Hold; congruence.
  - destruct Hold; congruence.
  - destruct Hold; congruence.
Qed.

Lemma accounted_enter (i : nat) (lines : list emitted) (m : leveled)
    (msgs : list string) (rest : list (leveled * list string)) :
  Accounted i lines [] ((m, msgs) :: rest) ->
  if log_level.ge (severity m) T
  then Accounted i lines [(m, msgs)] rest
  else Accounted i lines [] rest.
Proof.
  unfold accounted. simpl. unfold passes at 1. simpl.
  by destruct (log_level.ge (severity m) T).
Qed.

(** Thread [i] enters its next call: the level is loaded and compared. *)
Lemma enter_call_inv (i : nat) (c c' : config) (t : thread) :
  Inv c ->
  pool c !! i = Some t ->
  pending t = [] ->
  thread_step i c = Some c' ->
  Inv c'.
Proof.
  intros (lines & lg & Hlk & HT & Hst & Hw & Hfree & Hown & Hwho & Hlen & Hth)
    Hi Hp Hstep.
  unfold thread_step in Hstep. rewrite Hi in Hstep. simpl in Hstep.
  rewrite Hp in Hstep.
  destruct (Hth i t Hi) as (rest & Htodo & Hph). rewrite Hp in Hph.
  destruct (todo t) as [|[this cl] later] eqn:Ht; [done |].
  destruct rest as [|[m msgs] rest]; [done |].
  simpl in Htodo. injection Htodo as -> -> Hlater.
  rewrite (body_log _ _ _ _ lg Hlk) in Hstep. simpl in Hstep.
  injection Hstep as <-.
  assert (Hidle : m_lstrm_mtx lg <> Some i
                  /\ Accounted i lines [] ((m, msgs) :: rest)).
  { inversion Hph as [Hm Hacc | | | m' msgs' clk ps Hm Heq Hacc Hnil |];
      [done |].
    by destruct ps. }
  destruct Hidle as [Hm Hacc]. apply accounted_enter in Hacc.
  exists lines, lg. simpl.
  split; [done |]. split; [done |]. split; [done |]. split; [done |].
  split; [done |].
  split; [intros k Hk; rewrite length_insert; by apply Hown |].
  split; [done |].
  split; [by rewrite length_insert |].
  intros j tj Hj. destruct (decide (j = i)) as [-> | Hne].
  - rewrite list_lookup_insert_eq in Hj by (by eapply lookup_lt_Some).
    injection Hj as <-. simpl. exists rest. split; [done |].
    rewrite HT. destruct (log_level.ge (severity m) T).
    + by apply before_lock.
    + by apply between_calls.
  - rewrite list_lookup_insert_ne in Hj by done. by apply Hth.
Qed.

(** The threads other than [i] after a step of [i] that leaves the mutex
    free or with [i]. *)
Lemma others_after_step (i : nat) (c : config) (st' : state) (ti : thread)
    (lg lg' : basic_logger.t) (lines lines' : list emitted) :
  (forall j t,
      pool c !! j = Some t ->
      exists rest,
        todo t = map (to_call a) rest
        /\ Phase j lg (target_text (env (shared c)) (m_lstrm lg)) lines rest
             (pending t)) ->
  m_lstrm_mtx lg = None \/ m_lstrm_mtx lg = Some i ->
  m_lstrm_mtx lg' = None \/ m_lstrm_mtx lg' = Some i ->
  (forall j, j <> i -> calls_of j lines' = calls_of j lines) ->
  forall j t,
    j <> i ->
    <[i := ti]> (pool c) !! j = Some t ->
    exists rest,
      todo t = map (to_call a) rest
      /\ Phase j lg' (target_text (env st') (m_lstrm lg')) lines' rest
           (pending t).
Proof.
  intros Hth Hold Hnew Hcalls j t Hne Hj.
  rewrite list_lookup_insert_ne in Hj by done.
  destruct (Hth j t Hj) as (rest & Htodo & Hph).
  exists rest. split; [done |].
  by eapply phase_of_other;
    [exact Hne | exact Hold | exact Hnew | apply Hcalls |].
Qed.

Lemma render_line_of (i : nat) (w : world) (lg : basic_logger.t) (m : leveled)
    (msgs : list string) :
  m_start_time lg = start ->
  render start {| who := i; at_ms := steady_clock w; what := m; args := msgs |}
  = line_of i w lg m msgs.
Proof. intros <-. by rewrite line_of_shape. Qed.

(** The step a thread takes next tells where in its call it is. *)
Lemma phase_next (i : nat) (lg : basic_logger.t) (txt : string)
    (lines : list emitted) (rest : list (leveled * list string))
    (o : op) (os : list op) :
  Phase i lg txt lines rest (o :: os) ->
  (exists m msgs,
      o = lock_stream a
      /\ os = put_prefix a :: put_text a (tag m)
                :: map (put_text a) msgs ++ [put_endl a; unlock_stream a]
      /\ m_lstrm_mtx lg <> Some i
      /\ Accounted i lines [(m, msgs)] rest)
  \/ (exists m msgs,
        o = put_prefix a
        /\ os = put_text a (tag m)
                  :: map (put_text a) msgs ++ [put_endl a; unlock_stream a]
        /\ m_lstrm_mtx lg = Some i
        /\ txt = Base lines
        /\ Accounted i lines [(m, msgs)] rest)
  \/ (exists m msgs clk s ps,
        o = put_text a s
        /\ os = map (put_text a) ps ++ [put_endl a; unlock_stream a]
        /\ m_lstrm_mtx lg = Some i
        /\ txt +:+ cat (s :: ps) +:+ newline
           = Base lines
             +:+ render start
                   {| who := i; at_ms := clk; what := m; args := msgs |}
        /\ Accounted i lines [(m, msgs)] rest)
  \/ (exists m msgs clk,
        o = put_endl a
        /\ os = [unlock_stream a]
        /\ m_lstrm_mtx lg = Some i
        /\ txt +:+ newline
           = Base lines
             +:+ render start
                   {| who := i; at_ms := clk; what := m; args := msgs |}
        /\ Accounted i lines [(m, msgs)] rest)
  \/ (o = unlock_stream a
      /\ os = []
      /\ m_lstrm_mtx lg = Some i
      /\ txt = Base lines
      /\ Accounted i lines [] rest).
Proof.
  intros Hph.
  inversion Hph as [ | m msgs Hm Hacc Hops | m msgs Hm Htxt Hacc Hops
                     | m msgs clk ps Hm Htxt Hacc Hops | Hm Htxt Hacc Hops ].
  - left. exists m, msgs. by simplify_eq.
  - right. left. exists m, msgs. by simplify_eq.
  - destruct ps as [| s ps]; simpl in Hops; simplify_eq.
    + do 3 right. left. exists m, msgs, clk. by simplify_eq.
    + do 2 right. left. by exists m, msgs, clk, s, ps.
  - do 4 right. by simplify_eq.
Qed.

(** Thread [i] takes the next step of the call it is in. *)
Lemma op_step_inv (i : nat) (c c' : config) (t : thread) (o : op)
    (os : list op) :
  Inv c ->
  pool c !! i = Some t ->
  pending t = o :: os ->
  thread_step i c = Some c' ->
  Inv c'.
Proof.
  intros (lines & lg & Hlk & HT & Hst & Hw & Hfree & Hown & Hwho & Hlen & Hth)
    Hi Hp Hstep.
  unfold thread_step in Hstep. rewrite Hi in Hstep. simpl in Hstep.
  rewrite Hp in Hstep.
  destruct (exec i o (shared c)) as [st' |] eqn:He; [| done].
  simpl in Hstep. injection Hstep as <-.
  destruct (Hth i t Hi) as (rest & Htodo & Hph). rewrite Hp in Hph.
  assert (Hilt : i < length (pool c)) by (by eapply lookup_lt_Some).
  destruct (phase_next _ _ _ _ _ _ _ Hph)
    as [ (m & msgs & -> & -> & Hm & Hacc)
       | [ (m & msgs & -> & -> & Hm & Htxt & Hacc)
         | [ (m & msgs & clk & s & ps & -> & -> & Hm & Htxt & Hacc)
           | [ (m & msgs & clk & -> & -> & Hm & Htxt & Hacc)
             | (-> & -> & Hm & Htxt & Hacc) ]]]].
  - (* the lock *)
    simpl in He. rewrite Hlk in He. simpl in He.
    destruct (m_lstrm_mtx lg) eqn:Hmtx; [done |]. injection He as <-.
    exists lines, (with_mtx (Some i) lg). simpl.
    split; [apply lookup_insert_eq |].
    split; [done |]. split; [done |]. split; [done |]. split; [done |].
    split; [intros k [= <-]; by rewrite length_insert |].
    split; [done |]. split; [by rewrite length_insert |].
    intros j tj Hj. destruct (decide (j = i)) as [-> | Hne].
    + rewrite list_lookup_insert_eq in Hj by done. injection Hj as <-.
      exists rest. split; [done |]. simpl.
      apply after_lock; [done | by apply Hfree | done].
    + eapply (others_after_step i c
                (store a (env (shared c)) (with_mtx (Some i) lg) (shared c))
                _ lg (with_mtx (Some i) lg) lines lines);
        [exact Hth | by left | by right | done | exact Hne | exact Hj].
  - (* the prefix *)
    rewrite (exec_put_prefix _ _ _ lg Hlk) in He. injection He as <-.
    pose proof (insert_appended (msg_prefix i (env (shared c)) lg)
                  (env (shared c)) (m_lstrm lg) Hw) as Happ.
    destruct (insert _ _ _) as [w1 ls1]. destruct Happ as (Hw1 & Ht1 & _).
    simpl in Hw1, Ht1.
    exists lines, (with_lstrm ls1 lg). simpl.
    split; [apply lookup_insert_eq |].
    split; [done |]. split; [done |]. split; [done |].
    split; [intros Hnone; congruence |].
    split; [intros k Hk; rewrite length_insert; by apply Hown |].
    split; [done |]. split; [by rewrite length_insert |].
    intros j tj Hj. destruct (decide (j = i)) as [-> | Hne].
    + rewrite list_lookup_insert_eq in Hj by done. injection Hj as <-.
      exists rest. split; [done |]. simpl.
      apply (in_line a T start text0 progs i _ _ _ _ m msgs
               (steady_clock (env (shared c))) (tag m :: msgs));
        [done | | done].
      rewrite Ht1, Htxt, (render_line_of _ _ lg) by done.
      unfold line_of. simpl. by rewrite !text_app_assoc.
    + eapply (others_after_step i c (store a w1 (with_lstrm ls1 lg) (shared c))
                _ lg (with_lstrm ls1 lg) lines lines);
        [exact Hth | by right | by right | done | exact Hne | exact Hj].
  - (* an argument *)
    rewrite (exec_put_text _ _ _ _ lg Hlk) in He. injection He as <-.
    pose proof (insert_appended s (env (shared c)) (m_lstrm lg) Hw) as Happ.
    destruct (insert _ _ _) as [w1 ls1]. destruct Happ as (Hw1 & Ht1 & _).
    simpl in Hw1, Ht1.
    exists lines, (with_lstrm ls1 lg). simpl.
    split; [apply lookup_insert_eq |].
    split; [done |]. split; [done |]. split; [done |].
    split; [intros Hnone; congruence |].
    split; [intros k Hk; rewrite length_insert; by apply Hown |].
    split; [done |]. split; [by rewrite length_insert |].
    intros j tj Hj. destruct (decide (j = i)) as [-> | Hne].
    + rewrite list_lookup_insert_eq in Hj by done. injection Hj as <-.
      exists rest. split; [done |]. simpl.
      apply (in_line a T start text0 progs i _ _ _ _ m msgs clk ps);
        [done | | done].
      rewrite Ht1, <- Htxt. simpl. by rewrite !text_app_assoc.
    + eapply (others_after_step i c (store a w1 (with_lstrm ls1 lg) (shared c))
                _ lg (with_lstrm ls1 lg) lines lines);
        [exact Hth | by right | by right | done | exact Hne | exact Hj].
  - (* the line end *)
    rewrite (exec_put_endl _ _ _ lg Hlk) in He. injection He as <-.
    destruct (endl_appended (env (shared c)) (m_lstrm lg) Hw) as [Happ _].
    destruct (endl _ _) as [w1 ls1]. destruct Happ as (Hw1 & Ht1 & _).
    simpl in Hw1, Ht1.
    set (l := {| who := i; at_ms := clk; what := m; args := msgs |}) in *.
    exists (lines ++ [l]), (with_lstrm ls1 lg). simpl.
    split; [apply lookup_insert_eq |].
    split; [done |]. split; [done |]. split; [done |].
    split; [intros Hnone; congruence |].
    split; [intros k Hk; rewrite length_insert; by apply Hown |].
    split.
    { apply Forall_app. split; [done |]. apply Forall_singleton.
      simpl. by rewrite <- Hlen. }
    split; [by rewrite length_insert |].
    intros j tj Hj. destruct (decide (j = i)) as [-> | Hne].
    + rewrite list_lookup_insert_eq in Hj by done. injection Hj as <-.
      exists rest. split; [done |]. simpl.
      apply before_unlock; [done | |].
      * rewrite Ht1, base_snoc. by rewrite <- Htxt.
      * unfold accounted in *. rewrite calls_of_snoc. simpl.
         rewrite Nat.eqb_refl. by rewrite <- app_assoc.
    + eapply (others_after_step i c (store a w1 (with_lstrm ls1 lg) (shared c))
                _ lg (with_lstrm ls1 lg) lines (lines ++ [l]));
        [exact Hth | by right | by right | | exact Hne | exact Hj].
      intros k Hk. rewrite calls_of_snoc. simpl.
      destruct (i =? k) eqn:E; [apply Nat.eqb_eq in E; congruence |].
      by rewrite app_nil_r.
  - (* the unlock *)
    rewrite (exec_unlock _ _ _ lg Hlk Hm) in He. injection He as <-.
    exists lines, (with_mtx None lg). simpl.
    split; [apply lookup_insert_eq |].
    split; [done |]. split; [done |]. split; [done |].
    split; [done |].
    split; [done |].
    split; [done |]. split; [by rewrite length_insert |].
    intros j tj Hj. destruct (decide (j = i)) as [-> | Hne].
    + rewrite list_lookup_insert_eq in Hj by done. injection Hj as <-.
      exists rest. split; [done |]. simpl.
      by apply between_calls.
    + eapply (others_after_step i c
                (store a (env (shared c)) (with_mtx None lg) (shared c))
                _ lg (with_mtx None lg) lines lines);
        [exact Hth | by right | by left | done | exact Hne | exact Hj].
Qed.

Lemma step_inv (e : event) (c c' : config) :
  Inv c -> step e c = Some c' -> Inv c'.
Proof.
  intros HI Hstep. destruct e as [i | d]; simpl in Hstep.
  - assert (Hsome : exists t, pool c !! i = Some t).
    { unfold thread_step in Hstep. destruct (pool c !! i); [eauto | done]. }
    destruct Hsome as [t Hi].
    destruct (pending t) as [| o os] eqn:Hp.
    + by eapply enter_call_inv.
    + by eapply op_step_inv.
  - destruct (0 <=? d)%Z; [| done]. injection Hstep as <-.
    destruct HI as (lines & lg & H).
    exists lines, lg. exact H.
Qed.

Lemma steps_inv (es : list event) :
  forall c c', Inv c -> steps es c = Some c' -> Inv c'.
Proof.
  induction es as [| e es IH]; intros c c' HI Hs; simpl in Hs.
  - by injection Hs as <-.
  - destruct (step e c) as [c1 |] eqn:E; [| done]. simpl in Hs.
    eapply IH; [| exact Hs]. by eapply step_inv.
Qed.

(** Once every thread is done the mutex is free and each thread's lines
    are its calls at or above the threshold, in order. *)
Lemma inv_finished (c : config) :
  Inv c ->
  finished c = true ->
  exists lines,
    text_at a (shared c) = Some (Base lines)
    /\ Forall (fun l => who l < length progs) lines
    /\ forall i, i < length progs ->
         calls_of i lines = List.filter (passes T) (default [] (progs !! i)).
Proof.
  intros (lines & lg & Hlk & HT & Hst & Hw & Hfree & Hown & Hwho & Hlen & Hth)
    Hfin.
  unfold finished in Hfin. rewrite forallb_forall in Hfin.
  assert (Hidle : forall i t, pool c !! i = Some t ->
                    m_lstrm_mtx lg <> Some i /\ Accounted i lines [] []).
  { intros i t Hi. destruct (Hth i t Hi) as (rest & Htodo & Hph).
    assert (Hin : In t (pool c)).
    { apply list_elem_of_In, list_elem_of_lookup. eauto. }
    apply Hfin in Hin. unfold idle in Hin.
    destruct (pending t) as [| o os]; [| done].
    destruct (todo t); [| done]. destruct rest; [| done].
    inversion Hph as [Hm Hacc | | | m' msgs' clk ps Hm Heq Hacc Hnil |];
      [done |].
    by destruct ps. }
  assert (Hnone : m_lstrm_mtx lg = None).
  { destruct (m_lstrm_mtx lg) as [k |] eqn:E; [| done].
    destruct (lookup_lt_is_Some_2 (pool c) k (Hown k eq_refl)) as [t Hk].
    by destruct (Hidle k t Hk). }
  exists lines. split; [| split; [done |]].
  - unfold text_at. rewrite Hlk. simpl. f_equal. by apply Hfree.
  - intros i Hi. rewrite <- Hlen in Hi.
    destruct (lookup_lt_is_Some_2 (pool c) i Hi) as [t Ht].
    destruct (Hidle i t Ht) as [_ Hacc]. unfold accounted in Hacc.
    simpl in Hacc. by rewrite app_nil_r in Hacc.
Qed.

End one_logger_many_threads.

Section counting_lines.

Import basic_logger.

Lemma sum_list_map_plus {A : Type} (f g : A -> nat) (l : list A) :
  sum_list (map (fun x => f x + g x) l)
  = sum_list (map f l) + sum_list (map g l).
Proof. induction l as [| x l IH]; simpl; [done | lia]. Qed.

(** Exactly one index below [n] equals [k] when [k < n]. *)
Lemma sum_one_index (k j n : nat) :
  sum_list (map (fun i => if k =? i then 1 else 0) (seq j n))
  = if decide (j <= k < j + n) then 1 else 0.
Proof.
  revert j. induction n as [| n IH]; intros j; simpl.
  - case_decide; [lia | done].
  - rewrite IH. destruct (k =? j) eqn:E.
    + apply Nat.eqb_eq in E. subst. repeat case_decide; lia.
    + apply Nat.eqb_neq in E. repeat case_decide; lia.
Qed.

(** The lines are those of the threads, each counted once. *)
Lemma lines_by_thread (n : nat) (lines : list emitted) :
  Forall (fun l => who l < n) lines ->
  length lines = sum_list (map (fun i => length (calls_of i lines)) (seq 0 n)).
Proof.
  induction lines as [| l lines IH]; intros Hall.
  - simpl. induction (seq 0 n) as [| x xs IHx]; [done | by simpl].
  - apply Forall_cons in Hall as [Hl Hall].
    transitivity
      (sum_list (map (fun i => (if who l =? i then 1 else 0)
                               + length (calls_of i lines)) (seq 0 n))).
    + rewrite sum_list_map_plus, sum_one_index, <- IH by done.
      rewrite decide_True by lia. done.
    + f_equal. apply map_ext. intros i. unfold calls_of. simpl.
      by destruct (who l =? i).
Qed.

Lemma map_by_index {A B : Type} (f : list A -> B) (l : list (list A)) :
  map (fun i => f (default [] (l !! i))) (seq 0 (length l)) = map f l.
Proof.
  induction l as [| x l IH] using rev_ind; [done |].
  rewrite length_app. simpl. rewrite seq_app, !map_app. simpl.
  f_equal.
  - rewrite <- IH. apply map_ext_in. intros i Hi. apply in_seq in Hi.
    by rewrite lookup_app_l by lia.
  - by rewrite list_lookup_middle.
Qed.

(** What each member function yields is bracketed by its locks. *)
Lemma guarded_puts (this : nat) (held : list nat) (msgs : list string)
    (rest : list op) :
  this ∈ held ->
  guarded held (map (put_text this) msgs ++ rest) = guarded held rest.
Proof.
  intros Hin. induction msgs as [| s msgs IH]; simpl; [done |].
  by rewrite bool_decide_eq_true_2.
Qed.

Lemma body_guarded (this : nat) (cl : call) (st : state) (ops : list op) :
  body this cl st = Some ops -> guarded [] ops = true.
Proof.
  assert (Hin : this ∈ [this]) by apply list_elem_of_here.
  assert (Hline : forall tg msgs, guarded [] (write_line this tg msgs) = true).
  { intros tg msgs. unfold write_line. simpl.
    rewrite !bool_decide_eq_true_2 by done. simpl.
    rewrite guarded_puts by done. simpl.
    rewrite !bool_decide_eq_true_2 by done. simpl.
    by rewrite Nat.eqb_refl. }
  destruct cl as [m msgs | lvl | filepath | | rhs]; simpl.
  - destruct m; simpl;
      unfold fatal, error, warning, info, trace;
      destruct (objects st !! this) as [lg |]; simpl; try done;
      intros [= <-]; by destruct (log_level.ge _ _).
  - unfold min_log_level. destruct (objects st !! this); simpl; [| done].
    by intros [= <-].
  - unfold open_file. destruct (objects st !! this); simpl; [| done].
    intros [= <-]. simpl. rewrite !bool_decide_eq_true_2 by done. simpl.
    by rewrite Nat.eqb_refl.
  - unfold close_file. destruct (objects st !! this); simpl; [| done].
    intros [= <-]. simpl. rewrite !bool_decide_eq_true_2 by done. simpl.
    by rewrite Nat.eqb_refl.
  - unfold swap. destruct (objects st !! this); simpl; [| done].
    destruct (objects st !! rhs); simpl; [| done].
    intros [= <-]. case_decide as Hne; [done |]. simpl.
    assert (H1 : this ∈ [rhs; this]) by (apply list_elem_of_further, Hin).
    assert (H2 : rhs ∈ [rhs; this]) by apply list_elem_of_here.
    rewrite !bool_decide_eq_true_2 by done. simpl.
    rewrite Nat.eqb_refl. simpl.
    assert (Hneq : (this =? rhs) = false) by by apply Nat.eqb_neq.
    rewrite Hneq. simpl.
    rewrite bool_decide_eq_true_2 by done. simpl.
    by rewrite Nat.eqb_refl.
Qed.

End counting_lines.

Section whole_lines.

Import basic_logstream basic_logger threads.

Lemma calls_of_nobody (n i : nat) (lines : list emitted) :
  Forall (fun l => who l < n) lines -> n <= i -> calls_of i lines = [].
Proof.
  intros Hall Hi. induction Hall as [| l lines Hl Hall IH]; [done |].
  unfold calls_of in *. simpl.
  destruct (who l =? i) eqn:E; [apply Nat.eqb_eq in E; lia | done].
Qed.

Lemma spawn_inv (a : nat) (st0 : state) (lg0 : basic_logger.t)
    (progs : list (list (leveled * list string))) :
  objects st0 !! a = Some lg0 ->
  m_lstrm_mtx lg0 = None ->
  writable (m_lstrm lg0) = true ->
  inv a (m_min_lvl_atm lg0) (m_start_time lg0)
    (target_text (env st0) (m_lstrm lg0)) progs
    (spawn st0 (map (map (to_call a)) progs)).
Proof.
  intros Hlk Hmtx Hw. exists [], lg0. simpl.
  split; [done |]. split; [done |]. split; [done |]. split; [done |].
  split; [intros _; unfold base; simpl; by rewrite text_app_nil_r |].
  split; [intros k Hk; congruence |].
  split; [done |]. split; [by rewrite !length_map |].
  intros i t Hi. rewrite !list_lookup_fmap in Hi.
  destruct (progs !! i) as [p |] eqn:Hp; [| done]. simpl in Hi.
  injection Hi as <-. simpl. exists p. split; [done |].
  apply between_calls; [congruence |].
  unfold accounted. by rewrite Hp.
Qed.

(** [n] threads of [m] calls each, all at or above the threshold, make
    [n * m] lines. *)
Lemma all_passing_count (T : log_level.t) (m : nat)
    (progs : list (list (leveled * list string))) :
  Forall (fun p => length p = m /\ forallb (passes T) p = true) progs ->
  sum_list (map (fun p => length (List.filter (passes T) p)) progs)
  = length progs * m.
Proof.
  induction 1 as [| p progs [Hlen Hall] _ IH]; simpl; [done |].
  rewrite IH. f_equal.
  rewrite <- Hlen. clear Hlen. induction p as [| x p IHp]; simpl; [done |].
  simpl in Hall. apply andb_true_iff in Hall as [-> Hall]. simpl.
  by rewrite IHp.
Qed.

(** C2: threads that share one logger, each making leveled calls through
    it, in any order of their steps: once all are done the text on the
    logger's target is what was there followed by whole lines, one per call
    at or above the threshold, each the line of one call of one thread with one
    clock reading; the lines of each thread are its passing calls in the
    order it made them, and their number is the number of passing calls.
    The steps of every member function that touch a stream lie between the
    lock and the unlock of that logger's mutex. *)
Theorem lines_never_interleave
    (a : nat) (st0 : state) (lg0 : basic_logger.t)
    (progs : list (list (leveled * list string)))
    (sched : list event) (c : config) :
  objects st0 !! a = Some lg0 ->
  m_lstrm_mtx lg0 = None ->
  writable (m_lstrm lg0) = true ->
  steps sched (spawn st0 (map (map (to_call a)) progs)) = Some c ->
  finished c = true ->
  (forall this cl st ops, body this cl st = Some ops -> guarded [] ops = true)
  /\ exists lines : list emitted,
      text_at a (shared c)
      = Some (target_text (env st0) (m_lstrm lg0)
              +:+ cat (map (render (m_start_time lg0)) lines))
      /\ (forall i,
            calls_of i lines
            = List.filter (passes (m_min_lvl_atm lg0))
                (default [] (progs !! i)))
      /\ length lines
         = sum_list
             (map (fun p =>
                     length (List.filter (passes (m_min_lvl_atm lg0)) p))
                progs).
Proof.
  intros Hlk Hmtx Hw Hsteps Hfin.
  split; [apply body_guarded |].
  pose proof (spawn_inv a st0 lg0 progs Hlk Hmtx Hw) as H0.
  pose proof (steps_inv _ _ _ _ _ _ _ _ H0 Hsteps) as Hc.
  destruct (inv_finished _ _ _ _ _ _ Hc Hfin) as (lines & Htxt & Hwho & Hcalls).
  exists lines. split; [exact Htxt |].
  assert (Hall : forall i,
             calls_of i lines
             = List.filter (passes (m_min_lvl_atm lg0))
                 (default [] (progs !! i))).
  { intros i. destruct (decide (i < length progs)) as [Hi | Hi].
    - by apply Hcalls.
    - rewrite (calls_of_nobody (length progs)) by (done || lia).
      by rewrite lookup_ge_None_2 by lia. }
  split; [exact Hall |].
  rewrite (lines_by_thread (length progs)) by done.
  rewrite <- (map_by_index
                (fun p => length (List.filter (passes (m_min_lvl_atm lg0)) p))).
  f_equal. apply map_ext. intros i. by rewrite Hall.
Qed.

(** C2 on the sample schedule: thread 0 has to wait for thread 1's line. *)
Lemma lines_never_interleave_witness :
  exists c lines,
    steps sample_schedule
      (spawn (sample_state slug.info) (map (map (to_call 7)) sample_programs))
    = Some c
    /\ text_at 7 (shared c) = Some ("" +:+ cat (map (render 5000) lines))
    /\ length lines = 2.
Proof.
  assert (H : exists c,
             steps sample_schedule
               (spawn (sample_state slug.info)
                  (map (map (to_call 7)) sample_programs)) = Some c
             /\ finished c = true).
  { eexists. split; vm_compute; reflexivity. }
  destruct H as (c & Hs & Hf).
  destruct (lines_never_interleave 7 (sample_state slug.info)
              (basic_logger.init slug.info sample_world) sample_programs
              sample_schedule c eq_refl eq_refl eq_refl Hs Hf)
    as (_ & lines & Ht & _ & Hn).
  exists c, lines.
  split; [exact Hs |]. split; [exact Ht | exact Hn].
Defined.

End whole_lines.

(** * Swapping two loggers (C9) *)

Section swapping.

Import basic_logstream basic_logger threads.

(** A logger swapped with itself: the address test comes first, no step is
    taken and nothing is locked. *)
Lemma swap_with_itself_takes_no_step (tid this : nat) (st : state)
    (lg : basic_logger.t) :
  objects st !! this = Some lg ->
  body this (swap_with this) st = Some []
  /\ invoke tid this (swap_with this) st = Some (this, st).
Proof.
  intros Hlk. unfold invoke. simpl. unfold swap. rewrite Hlk. simpl.
  by rewrite decide_True.
Qed.

(** While the two threads keep what they have and the loggers stay as they
    are, neither thread can take a step. *)
Lemma opposite_swaps_blocked (c0 c : config) :
  steps [step_of 0; step_of 1; step_of 0; step_of 1] opposite_swaps = Some c0 ->
  pool c = pool c0 ->
  objects (shared c) = objects (shared c0) ->
  forall i, thread_step i c = None.
Proof.
  intros Hc0 Hpool Hobj i. vm_compute in Hc0. injection Hc0 as <-.
  unfold thread_step. rewrite Hpool.
  destruct i as [| [| i]]; simpl; [| | done].
  - rewrite Hobj. reflexivity.
  - rewrite Hobj. reflexivity.
Qed.

(** C9, on the code: thread 0 runs swap on logger 1 with logger 2 while
    thread 1 runs swap on logger 2 with logger 1.  After each has locked the
    mutex of its own logger (four steps), each waits for the mutex the
    other holds: no thread can take a step, now or after any passing of
    time, and the two calls never finish. *)
Theorem swap_in_opposite_orders_deadlocks :
  exists c,
    steps [step_of 0; step_of 1; step_of 0; step_of 1] opposite_swaps = Some c
    /\ deadlocked c
    /\ forall es c', steps es c = Some c' -> finished c' = false.
Proof.
  assert (H : exists c,
             steps [step_of 0; step_of 1; step_of 0; step_of 1] opposite_swaps
             = Some c).
  { eexists. vm_compute. reflexivity. }
  destruct H as (c & Hc). exists c. split; [exact Hc |].
  assert (Hfin : forall c', pool c' = pool c -> finished c' = false).
  { intros c' Hp. unfold finished. rewrite Hp.
    vm_compute in Hc. injection Hc as <-. reflexivity. }
  split.
  - split; [by apply Hfin |]. by apply (opposite_swaps_blocked c).
  - intros es. 
    assert (Hgen : forall c1 c',
               pool c1 = pool c -> objects (shared c1) = objects (shared c) ->
               steps es c1 = Some c' -> pool c' = pool c).
    { induction es as [| e es IH]; intros c1 c' Hp Ho Hs; simpl in Hs.
      - by injection Hs as <-.
      - destruct e as [i | d]; simpl in Hs.
        + by rewrite (opposite_swaps_blocked c c1 Hc Hp Ho i) in Hs.
        + destruct (0 <=? d)%Z; [| done]. simpl in Hs.
          by eapply IH; [| | exact Hs]. }
    intros c' Hs. apply Hfin. by eapply Hgen.
Qed.

End swapping.

(** * Calls as scripts on the stream *)

Section calls_as_scripts.

Import basic_logstream basic_logger.

Lemma play_cons (a : action) (script : list action) (w : world)
    (ls : basic_logstream.t) :
  play (a :: script) w ls = play script (apply a w ls).1 (apply a w ls).2.
Proof. unfold play. simpl. by destruct (apply a w ls). Qed.

Lemma play_app (s1 s2 : list action) (w : world) (ls : basic_logstream.t) :
  play (s1 ++ s2) w ls = play s2 (play s1 w ls).1 (play s1 w ls).2.
Proof.
  unfold play. rewrite fold_left_app.
  by destruct (fold_left _ s1 (w, ls)).
Qed.

(** No member call of the stream moves the clock or changes which paths
    can be opened. *)
Lemma apply_keeps_clock (a : action) (w : world) (ls : basic_logstream.t) :
  steady_clock (apply a w ls).1 = steady_clock w
  /\ can_open (apply a w ls).1 = can_open w.
Proof.
  destruct ls as [rb [bad fl] [f pa]].
  destruct a; unfold apply, open, close, endl, insert, flush, pubsync, sputn,
    good, is_open, basic_filebuf.is_open, basic_filebuf.open, fopen,
    basic_filebuf.close, basic_filebuf.sync, basic_filebuf.sputn; simpl;
    destruct rb, bad, fl, f; simpl;
    repeat (case_match; simplify_eq/=); done.
Qed.

Lemma play_keeps_clock (script : list action) :
  forall w ls,
    steady_clock (play script w ls).1 = steady_clock w
    /\ can_open (play script w ls).1 = can_open w.
Proof.
  induction script as [| a script IH]; intros w ls; [done |].
  rewrite play_cons.
  destruct (apply_keeps_clock a w ls) as [H1 H2].
  destruct (IH (apply a w ls).1 (apply a w ls).2) as [H3 H4].
  split; congruence.
Qed.

Lemma run_puts_play (tid a : nat) (msgs : list string) (rest : list op) :
  forall (w : world) (lg : basic_logger.t) (st : state),
    run tid (map (put_text a) msgs ++ rest) (store a w lg st)
    = run tid rest
        (store a (play (map do_insert msgs) w (m_lstrm lg)).1
           (with_lstrm (play (map do_insert msgs) w (m_lstrm lg)).2 lg) st).
Proof.
  induction msgs as [| s msgs IH]; intros w lg st.
  - simpl. by destruct lg.
  - change (map (put_text a) (s :: msgs) ++ rest)
      with (put_text a s :: (map (put_text a) msgs ++ rest)).
    rewrite run_cons, (exec_put_text _ _ _ _ lg), bind_Some
      by apply store_lookup.
    rewrite store_store. simpl map. rewrite play_cons.
    change (env (store a w lg st)) with w.
    by rewrite IH.
Qed.

(** A whole line, with the mutex free, is its script played on the stream. *)
Lemma run_write_line_play (tid this : nat) (tg : string) (msgs : list string)
    (st : state) (lg : basic_logger.t) :
  objects st !! this = Some lg ->
  m_lstrm_mtx lg = None ->
  let r := play (do_insert (msg_prefix tid (env st) lg) :: do_insert tg
                   :: map do_insert msgs ++ [do_endl])
             (env st) (m_lstrm lg) in
  run tid (write_line this tg msgs) st
  = Some (store this r.1 (with_lstrm r.2 lg) st).
Proof.
  intros Hlk Hmtx r. subst r. unfold write_line.
  change ([lock_stream this; put_prefix this; put_text this tg]
            ++ map (put_text this) msgs
            ++ [put_endl this; unlock_stream this])
    with (lock_stream this :: put_prefix this :: put_text this tg
            :: (map (put_text this) msgs
                  ++ [put_endl this; unlock_stream this])).
  rewrite run_cons, (exec_lock _ _ _ lg), bind_Some by done.
  rewrite run_cons, (exec_put_prefix _ _ _ (with_mtx (Some tid) lg)),
    bind_Some by apply store_lookup.
  rewrite store_store.
  rewrite run_cons, (exec_put_text _ _ _ _ _ (store_lookup _ _ _ _)), bind_Some.
  rewrite store_store.
  rewrite run_puts_play.
  rewrite run_cons, (exec_put_endl _ _ _ _ (store_lookup _ _ _ _)), bind_Some.
  rewrite store_store.
  rewrite run_cons. erewrite exec_unlock; [| apply store_lookup | done].
  rewrite bind_Some. simpl run. rewrite store_store.
  rewrite !play_cons, play_app. simpl play.
  f_equal. f_equal. destruct lg; simpl in *. by subst.
Qed.

(** Every call but [swap], made while the mutex is free, returns, and what
    it has done is its script played on the logger's stream (and, for the
    setter, the level stored). *)
Lemma invoke_plays (tid this : nat) (c : call) (st : state)
    (lg : basic_logger.t) :
  objects st !! this = Some lg ->
  m_lstrm_mtx lg = None ->
  (forall rhs, c <> swap_with rhs) ->
  let r := play (script_of tid (env st) lg c) (env st) (m_lstrm lg) in
  invoke tid this c st
  = Some (this,
          store this r.1
            (with_lstrm r.2
               (match c with
                | set_level lvl => with_min_lvl lvl lg
                | _ => lg
                end)) st).
Proof.
  intros Hlk Hmtx Hns r. subst r.
  destruct c as [m msgs | lvl | filepath | | rhs].
  - unfold invoke. rewrite (body_log _ _ _ _ lg Hlk). rewrite bind_Some.
    unfold script_of. destruct (log_level.ge _ _).
    + by rewrite (run_write_line_play _ _ _ _ _ lg).
    + simpl. rewrite <- (store_same this lg st Hlk) at 1. by destruct lg.
  - unfold invoke. simpl. unfold min_log_level. rewrite Hlk. simpl.
    rewrite Hlk. simpl. by destruct lg.
  - by rewrite (invoke_open _ _ _ _ lg).
  - by rewrite (invoke_close _ _ _ lg).
  - by destruct (Hns rhs).
Qed.

End calls_as_scripts.

(** * What the stream keeps and what it leaves alone *)

Section stream_keeps.

Import basic_logstream.

Lemma apply_keeps_sound (a : action) (w : world) (ls : basic_logstream.t) :
  (is_open ls = true -> rdbuf ls = own_filebuf)
  /\ (stranded ls = false -> good ls = true)
  /\ (is_open ls = false -> basic_filebuf.put_area (m_filebuf ls) = "") ->
  let ls' := (apply a w ls).2 in
  (is_open ls' = true -> rdbuf ls' = own_filebuf)
  /\ (stranded ls' = false -> good ls' = true)
  /\ (is_open ls' = false -> basic_filebuf.put_area (m_filebuf ls') = "").
Proof.
  destruct ls as [rb [bad fl] [f pa]].
  destruct a; unfold apply, open, close, endl, insert, flush, pubsync, sputn,
    good, stranded, is_open, basic_filebuf.is_open, basic_filebuf.open,
    basic_filebuf.close, basic_filebuf.sync, basic_filebuf.sputn; simpl;
    intros (H1 & H2 & H3); destruct rb, bad, fl, f; simpl in *;
    repeat (case_match; simplify_eq/=); try done;
    repeat split; intros; try done; auto.
Qed.

(** X1: in every state a stream reaches from its construction through
    [open], [close], insertions and flushes, it accepts characters exactly
    when it is not stranded on its closed file buffer (so it is in a failed
    state only after a failed open), and a file buffer with no file open
    holds no characters. *)
Theorem reached_writable_unless_stranded (script : list (action * world)) :
  writable (reached script) = negb (stranded (reached script))
  /\ (if is_open (reached script) then True
      else basic_filebuf.put_area (m_filebuf (reached script)) = "").
Proof.
  assert (H : (is_open (reached script) = true ->
               rdbuf (reached script) = own_filebuf)
              /\ (stranded (reached script) = false ->
                  good (reached script) = true)
              /\ (is_open (reached script) = false ->
                  basic_filebuf.put_area (m_filebuf (reached script)) = "")).
  { induction script as [| [a w] script IH] using rev_ind; [done |].
    rewrite reached_snoc. by apply apply_keeps_sound. }
  destruct H as (H1 & H2 & H3).
  split; [| by destruct (is_open (reached script)); [| apply H3]].
  destruct (reached script) as [rb st fb].
  unfold writable, console_bound, file_bound, stranded, is_open in *.
  simpl in *. destruct rb, (basic_filebuf.is_open fb); simpl in *;
    rewrite ?andb_true_r, ?andb_false_r; auto.
  by specialize (H1 eq_refl).
Qed.

Lemma apply_files_elsewhere (a : action) (w : world)
    (ls : basic_logstream.t) (q : string) :
  basic_filebuf.file (m_filebuf ls) <> Some q ->
  a <> do_open q ->
  files (apply a w ls).1 !! q = files w !! q.
Proof.
  intros Hf Ha. destruct ls as [rb [bad fl] [f pa]]. simpl in Hf.
  assert (Hw : forall p bytes w0, p <> q ->
                 files (fwrite p bytes w0) !! q = files w0 !! q).
  { intros p bytes w0 Hne. unfold fwrite. simpl.
    by rewrite lookup_insert_ne. }
  destruct a as [p | | s | |];
    unfold apply, open, close, endl, insert, flush, pubsync, sputn,
      good, is_open, basic_filebuf.is_open, basic_filebuf.open, fopen,
      basic_filebuf.close, basic_filebuf.sync, basic_filebuf.sputn; simpl;
    destruct rb, bad, fl, f as [p0 |]; simpl;
    repeat (case_match; simplify_eq/=); try done;
    rewrite ?Hw by congruence; try done;
    rewrite ?lookup_insert_ne by congruence; try done;
    rewrite ?Hw by congruence; done.
Qed.

(** X2: a member call of the stream changes no file other than the one the
    stream has open and the one it is asked to open. *)
Theorem apply_leaves_other_files (a : action) (w : world)
    (ls : basic_logstream.t) (q : string) :
  basic_filebuf.file (m_filebuf ls) <> Some q ->
  a <> do_open q ->
  files (apply a w ls).1 !! q = files w !! q.
Proof. apply apply_files_elsewhere. Qed.

Lemma apply_leaves_other_files_witness :
  files (apply (do_insert "x") sample_world
           (open "/var/log/app.log" sample_world init).2).1
    !! "/var/log/other.log"
  = files sample_world !! "/var/log/other.log".
Proof.
  apply (apply_leaves_other_files (do_insert "x") sample_world
           (open "/var/log/app.log" sample_world init).2
           "/var/log/other.log").
  - vm_compute. discriminate.
  - discriminate.
Defined.

Lemma close_flush (w : world) (ls : basic_logstream.t)
    (p : string) :
  basic_filebuf.file (m_filebuf ls) = Some p ->
  files (close w ls).1 !! p
  = Some (default "" (files w !! p)
          +:+ basic_filebuf.put_area (m_filebuf ls))
  /\ is_open (close w ls).2 = false
  /\ rdbuf (close w ls).2 = clog_rdbuf
  /\ good (close w ls).2 = true.
Proof.
  intros Hf. destruct ls as [rb [bad fl] [f pa]]. simpl in Hf. subst f.
  unfold close, flush, pubsync, good, is_open, basic_filebuf.is_open,
    basic_filebuf.close, basic_filebuf.sync, fwrite; simpl.
  destruct rb, bad, fl; simpl;
    rewrite ?lookup_insert_eq; simpl; rewrite ?text_app_nil_r; done.
Qed.

(** X3: [close()] writes out whatever the file buffer still holds, in any
    stream state: the file that was open ends with the characters that were
    buffered, nothing is open afterwards, and the stream is back on the
    console in a good state. *)
Theorem close_writes_buffer_out (w : world) (ls : basic_logstream.t)
    (p : string) :
  basic_filebuf.file (m_filebuf ls) = Some p ->
  files (close w ls).1 !! p
  = Some (default "" (files w !! p)
          +:+ basic_filebuf.put_area (m_filebuf ls))
  /\ is_open (close w ls).2 = false
  /\ rdbuf (close w ls).2 = clog_rdbuf
  /\ good (close w ls).2 = true.
Proof. apply close_flush. Qed.

Lemma close_writes_buffer_out_witness :
  is_open (close sample_world
             (insert "tail"
                sample_world (open "/var/log/app.log" sample_world init).2).2).2
  = false.
Proof.
  apply (close_writes_buffer_out sample_world
           (insert "tail" sample_world
              (open "/var/log/app.log" sample_world init).2).2
           "/var/log/app.log").
  reflexivity.
Defined.

End stream_keeps.

(** * Calls made alone *)

Section calls_alone.

Import basic_logstream basic_logger.

(** X4: with the mutex free, every call other than [swap] returns the
    logger it was made on and leaves the mutex free; it changes no other
    logger, never the start time, and the threshold only in the setter; the
    clock and the set of paths that can be opened are as before. *)
Theorem call_returns_and_releases (tid this : nat) (c : call) (st : state)
    (lg : basic_logger.t) :
  objects st !! this = Some lg ->
  m_lstrm_mtx lg = None ->
  (forall rhs, c <> swap_with rhs) ->
  exists st' lg',
    invoke tid this c st = Some (this, st')
    /\ objects st' = <[this := lg']> (objects st)
    /\ m_lstrm_mtx lg' = None
    /\ m_start_time lg' = m_start_time lg
    /\ m_min_lvl_atm lg'
       = match c with set_level lvl => lvl | _ => m_min_lvl_atm lg end
    /\ steady_clock (env st') = steady_clock (env st)
    /\ can_open (env st') = can_open (env st).
Proof.
  intros Hlk Hmtx Hns.
  pose proof (invoke_plays tid this c st lg Hlk Hmtx Hns) as H.
  simpl in H.
  destruct (play_keeps_clock (script_of tid (env st) lg c) (env st) (m_lstrm lg))
    as [Hc Ho].
  eexists _, _. split; [exact H |]. simpl.
  split; [done |]. by destruct c.
Qed.

Lemma call_returns_and_releases_witness :
  exists st', invoke 1 7 close_ (sample_state slug.info) = Some (7, st').
Proof.
  destruct (call_returns_and_releases 1 7 close_ (sample_state slug.info)
              (basic_logger.init slug.info sample_world) eq_refl eq_refl)
    as (st' & lg' & H & _).
  - intros rhs. discriminate.
  - by exists st'.
Defined.

(** X5: while the mutex is held, by whichever thread, a call that has to
    lock it ([open_file], [close_file], a leveled call at or above the
    threshold) cannot be completed, and a call that does not (the setter, a
    leveled call below the threshold) returns as usual. *)
Theorem held_mutex_blocks (tid holder this : nat) (c : call) (st : state)
    (lg : basic_logger.t) :
  objects st !! this = Some lg ->
  m_lstrm_mtx lg = Some holder ->
  (forall rhs, c <> swap_with rhs) ->
  if locks lg c
  then invoke tid this c st = None
  else exists st', invoke tid this c st = Some (this, st')
                   /\ env st' = env st.
Proof.
  intros Hlk Hmtx Hns.
  assert (Hlock : forall rest,
             run tid (lock_stream this :: rest) st = None).
  { intros rest. rewrite run_cons. simpl. rewrite Hlk. simpl.
    by rewrite Hmtx. }
  destruct c as [m msgs | lvl | filepath | | rhs]; simpl.
  - unfold invoke. rewrite (body_log _ _ _ _ lg Hlk), bind_Some.
    destruct (log_level.ge _ _).
    + unfold write_line. simpl app. by rewrite Hlock.
    + by exists st.
  - unfold invoke. simpl. unfold min_log_level. rewrite Hlk. simpl.
    rewrite Hlk. simpl. by eexists.
  - unfold invoke. simpl. unfold open_file. rewrite Hlk.
    rewrite bind_Some. rewrite bind_Some. by rewrite Hlock.
  - unfold invoke. simpl. unfold close_file. rewrite Hlk.
    rewrite bind_Some. rewrite bind_Some. by rewrite Hlock.
  - by destruct (Hns rhs).
Qed.

Lemma held_mutex_blocks_witness :
  invoke 1 7 close_
    (store 7 sample_world
       (with_mtx (Some 2) (basic_logger.init slug.info sample_world))
       (sample_state slug.info))
  = None.
Proof.
  exact (held_mutex_blocks 1 2 7 close_
           (store 7 sample_world
              (with_mtx (Some 2) (basic_logger.init slug.info sample_world))
              (sample_state slug.info))
           (with_mtx (Some 2) (basic_logger.init slug.info sample_world))
           eq_refl eq_refl
           (fun rhs H => eq_ind close_
                           (fun c => match c with close_ => True | _ => False end)
                           I (swap_with rhs) H)).
Defined.

Lemma invoke_set_level (tid this : nat) (lvl : log_level.t)
    (st : state) (lg : basic_logger.t) :
  objects st !! this = Some lg ->
  exists st',
    invoke tid this (set_level lvl) st = Some (this, st')
    /\ get_min_log_level this st' = Some lvl
    /\ stream this st' = stream this st
    /\ start_time this st' = start_time this st
    /\ objects st' = <[this := with_min_lvl lvl lg]> (objects st)
    /\ env st' = env st.
Proof.
  intros Hlk. unfold invoke. simpl. unfold min_log_level. rewrite Hlk. simpl.
  rewrite Hlk. simpl. eexists. split; [done |].
  unfold get_min_log_level, stream, start_time. simpl.
  rewrite lookup_insert_eq, Hlk. done.
Qed.

(** X6: the setter needs no lock: whoever holds the mutex, it returns the
    logger, the getter then returns the level just stored, and the stream,
    the start time, the mutex, every other logger and the environment are
    as before. *)
Theorem set_then_get_min_log_level (tid this : nat) (lvl : log_level.t)
    (st : state) (lg : basic_logger.t) :
  objects st !! this = Some lg ->
  exists st',
    invoke tid this (set_level lvl) st = Some (this, st')
    /\ get_min_log_level this st' = Some lvl
    /\ stream this st' = stream this st
    /\ start_time this st' = start_time this st
    /\ objects st' = <[this := with_min_lvl lvl lg]> (objects st)
    /\ env st' = env st.
Proof. apply invoke_set_level. Qed.

Lemma set_then_get_min_log_level_witness :
  exists st',
    invoke 1 7 (set_level log_level.None) (sample_state slug.info)
    = Some (7, st')
    /\ get_min_log_level 7 st' = Some log_level.None.
Proof.
  destruct (set_then_get_min_log_level 1 7 log_level.None
              (sample_state slug.info)
              (basic_logger.init slug.info sample_world) eq_refl)
    as (st' & H1 & H2 & _).
  by exists st'.
Defined.

(** X7: a level stored by the setter is the threshold of the next leveled
    call: that call sends its line when its severity is at least the new
    level and changes nothing otherwise, whatever the level was before. *)
Theorem new_threshold_decides_next_call (tid this : nat) (lvl : log_level.t)
    (m : leveled) (msgs : list string) (st : state) (lg : basic_logger.t) :
  objects st !! this = Some lg ->
  m_lstrm_mtx lg = None ->
  writable (m_lstrm lg) = true ->
  exists st1 st2,
    invoke tid this (set_level lvl) st = Some (this, st1)
    /\ invoke tid this (log m msgs) st1 = Some (this, st2)
    /\ if log_level.ge (severity m) lvl
       then text_at this st2
            = Some (target_text (env st) (m_lstrm lg)
                    +:+ line_of tid (env st) lg m msgs)
       else st2 = st1.
Proof.
  intros Hlk Hmtx Hw.
  destruct (invoke_set_level tid this lvl st lg Hlk)
    as (st1 & H1 & _ & _ & _ & Hobj & Henv).
  assert (Hlk1 : objects st1 !! this = Some (with_min_lvl lvl lg)).
  { rewrite Hobj. apply lookup_insert_eq. }
  exists st1. destruct (log_level.ge (severity m) lvl) eqn:Hge.
  - destruct (invoke_log_pass tid this m msgs st1 (with_min_lvl lvl lg)
                Hlk1 Hmtx Hw Hge) as (w' & ls' & H2 & Happ & _).
    eexists. split; [done |]. split; [exact H2 |].
    unfold text_at. rewrite store_lookup. simpl.
    destruct Happ as (_ & Htxt & _). simpl in Htxt. by rewrite Htxt, Henv.
  - destruct (invoke_log_below tid this m msgs st1 (with_min_lvl lvl lg)
                Hlk1 Hge) as [_ H2].
    by exists st1.
Qed.

Lemma new_threshold_decides_next_call_witness :
  exists st1 st2,
    invoke 1 7 (set_level slug.trace) (sample_state slug.error) = Some (7, st1)
    /\ invoke 1 7 (log Trace ["t"]) st1 = Some (7, st2).
Proof.
  destruct (new_threshold_decides_next_call 1 7 slug.trace Trace ["t"]
              (sample_state slug.error)
              (basic_logger.init slug.error sample_world)
              eq_refl eq_refl eq_refl)
    as (st1 & st2 & H1 & H2 & _).
  by exists st1, st2.
Defined.

End calls_alone.

(** * From one file to the next *)

Section redirect.

Import basic_logstream basic_logger.

(** [open] on a stream with a file open is [close] and then [open]. *)
Lemma open_after_close (p : string) (w : world) (ls : basic_logstream.t) :
  is_open ls = true ->
  open p w ls = open p (close w ls).1 (close w ls).2.
Proof.
  intros E. destruct (close_frame w ls) as (Hc & _).
  unfold open at 1 2. rewrite E, Hc. by destruct (close w ls).
Qed.

(** An open that the environment grants, from any stream state. *)
Lemma open_granted_any (p : string) (w : world) (ls : basic_logstream.t) :
  can_open w p = true ->
  let r := open p w ls in
  writable r.2 = true
  /\ rdbuf r.2 = own_filebuf
  /\ m_filebuf r.2 = {| basic_filebuf.file := Some p;
                        basic_filebuf.put_area := "" |}
  /\ is_Some (files r.1 !! p).
Proof.
  intros Hcan. destruct (is_open ls) eqn:E.
  - simpl. rewrite open_after_close by done.
    destruct (close_frame w ls) as (Hc & Hcan' & _).
    destruct (open_granted p (close w ls).1 (close w ls).2)
      as (H1 & H2 & H3 & H4 & _); [by rewrite Hcan' | done |].
    split; [done |]. split; [done |]. split; [done |].
    rewrite H4. eauto.
  - destruct (open_granted p w ls Hcan E) as (H1 & H2 & H3 & H4 & _).
    split; [done |]. split; [done |]. split; [done |].
    simpl. rewrite H4. eauto.
Qed.

(** Opening another path keeps what a flushed stream had in its file. *)
Lemma open_keeps_flushed_file (p q x : string) (w : world)
    (ls : basic_logstream.t) :
  p <> q ->
  basic_filebuf.file (m_filebuf ls) = Some q ->
  basic_filebuf.put_area (m_filebuf ls) = "" ->
  files w !! q = Some x ->
  files (open p w ls).1 !! q = Some x.
Proof.
  intros Hne Hf Hpa Hx.
  assert (E : is_open ls = true).
  { unfold is_open, basic_filebuf.is_open. by rewrite Hf. }
  rewrite open_after_close by done.
  destruct (close_flush w ls q Hf) as (Hq & Hno & _).
  rewrite Hpa, Hx in Hq. simpl in Hq. rewrite text_app_nil_r in Hq.
  rewrite <- Hq.
  apply (apply_files_elsewhere (do_open p)).
  - unfold is_open, basic_filebuf.is_open in Hno.
    destruct (basic_filebuf.file (m_filebuf (close w ls).2)); done.
  - congruence.
Qed.

(** A script of insertions and flushes leaves the open file open and
    touches no other file. *)
Lemma play_writes_elsewhere (script : list action) (q : string) :
  Forall (fun a => match a with
                   | do_insert _ | do_endl | do_flush => True
                   | _ => False
                   end) script ->
  forall w ls,
    basic_filebuf.file (m_filebuf ls) <> Some q ->
    files (play script w ls).1 !! q = files w !! q.
Proof.
  induction 1 as [| a script Ha _ IH]; intros w ls Hf; [done |].
  rewrite play_cons.
  assert (Hkeep : basic_filebuf.file (m_filebuf (apply a w ls).2)
                  = basic_filebuf.file (m_filebuf ls)).
  { destruct ls as [rb [bad fl] [f pa]].
    destruct a; try done;
      unfold apply, endl, insert, flush, pubsync, sputn, good,
        basic_filebuf.sync, basic_filebuf.sputn; simpl;
      destruct rb, bad, fl, f; simpl; try done;
      repeat (case_match; simplify_eq/=); done. }
  rewrite IH by (by rewrite Hkeep).
  apply apply_files_elsewhere; [done |]. by destruct a.
Qed.

Lemma script_of_log_writes (tid : nat) (w : world) (lg : basic_logger.t)
    (m : leveled) (msgs : list string) :
  Forall (fun a => match a with
                   | do_insert _ | do_endl | do_flush => True
                   | _ => False
                   end) (script_of tid w lg (log m msgs)).
Proof.
  unfold script_of. destruct (log_level.ge _ _); [| done].
  repeat apply Forall_cons_2; try done.
  apply Forall_app. split; [| by apply Forall_singleton].
  by apply Forall_fmap, Forall_true.
Qed.

(** Locks, unlocks, the store of a level and the exchanges of [swap] leave
    the environment alone. *)
Lemma run_keeps_env (tid : nat) (ops : list op) :
  forall st st',
    Forall (fun o => match o with
                     | lock_stream _ | unlock_stream _ | store_min_lvl _ _
                     | swap_members _ _ => True
                     | _ => False
                     end) ops ->
    run tid ops st = Some st' ->
    env st' = env st.
Proof.
  induction ops as [| o ops IH]; intros st st' Hall Hrun.
  - by injection Hrun as <-.
  - apply Forall_cons in Hall as [Ho Hall]. rewrite run_cons in Hrun.
    destruct (exec tid o st) as [st1 |] eqn:He; [| done].
    rewrite bind_Some in Hrun. rewrite (IH st1 st' Hall Hrun).
    destruct o; try done; simpl in He.
    + destruct (objects st !! a) as [lg |]; [| done]. simpl in He.
      destruct (m_lstrm_mtx lg); [done |]. by injection He as <-.
    + destruct (objects st !! a) as [lg |]; [| done]. simpl in He.
      case_decide; [| done]. by injection He as <-.
    + destruct (objects st !! a) as [lg |]; [| done]. by injection He as <-.
    + destruct (objects st !! a) as [la |]; [| done]. simpl in He.
      destruct (objects st !! b) as [lb |]; [| done]. by injection He as <-.
Qed.

(** A call leaves every file alone but the one the stream has open and the
    one it opens. *)
Lemma invoke_files_elsewhere (tid this : nat) (c : call) (q : string)
    (st st' : state) (lg : basic_logger.t) :
  objects st !! this = Some lg ->
  m_lstrm_mtx lg = None ->
  basic_filebuf.file (m_filebuf (m_lstrm lg)) <> Some q ->
  c <> open_ q ->
  invoke tid this c st = Some (this, st') ->
  files (env st') !! q = files (env st) !! q.
Proof.
  intros Hlk Hmtx Hf Hc Hinv.
  destruct c as [m msgs | lvl | filepath | | rhs].
  - rewrite (invoke_plays _ _ _ _ lg) in Hinv by done.
    injection Hinv as <-. simpl.
    by apply play_writes_elsewhere; [apply script_of_log_writes |].
  - rewrite (invoke_plays _ _ _ _ lg) in Hinv by done.
    by injection Hinv as <-.
  - rewrite (invoke_plays _ _ _ _ lg) in Hinv by done.
    injection Hinv as <-. simpl. rewrite play_cons. simpl.
    apply (apply_files_elsewhere (do_open filepath)); [done | congruence].
  - rewrite (invoke_plays _ _ _ _ lg) in Hinv by done.
    injection Hinv as <-. simpl. rewrite play_cons. simpl.
    by apply (apply_files_elsewhere do_close).
  - unfold invoke in Hinv.
    destruct (body this (swap_with rhs) st) as [ops |] eqn:Hb; [| done].
    rewrite bind_Some in Hinv.
    destruct (run tid ops st) as [st1 |] eqn:Hrun; [| done].
    injection Hinv as <-.
    rewrite (run_keeps_env tid ops st st1); [done | | done].
    simpl in Hb. unfold swap in Hb. rewrite Hlk in Hb. simpl in Hb.
    destruct (objects st !! rhs); [| done]. simpl in Hb.
    injection Hb as <-. case_decide; [done |].
    by repeat apply Forall_cons_2.
Qed.

(** X8: a call on a logger changes no file other than the one its stream
    has open and the one it is asked to open. *)
Theorem call_leaves_other_files (tid this : nat) (c : call) (q : string)
    (st st' : state) (lg : basic_logger.t) :
  objects st !! this = Some lg ->
  m_lstrm_mtx lg = None ->
  basic_filebuf.file (m_filebuf (m_lstrm lg)) <> Some q ->
  c <> open_ q ->
  invoke tid this c st = Some (this, st') ->
  files (env st') !! q = files (env st) !! q.
Proof. apply invoke_files_elsewhere. Qed.

Lemma call_leaves_other_files_witness :
  exists st',
    invoke 1 7 (open_ "/var/log/b.log") (sample_state slug.info)
    = Some (7, st')
    /\ files (env st') !! "/var/log/app.log"
       = files (env (sample_state slug.info)) !! "/var/log/app.log".
Proof.
  assert (H : exists st',
             invoke 1 7 (open_ "/var/log/b.log") (sample_state slug.info)
             = Some (7, st')).
  { eexists. vm_compute. reflexivity. }
  destruct H as [st' H]. exists st'. split; [exact H |].
  apply (call_leaves_other_files 1 7 (open_ "/var/log/b.log")
           "/var/log/app.log" (sample_state slug.info) st'
           (basic_logger.init slug.info sample_world) eq_refl eq_refl);
    [discriminate | discriminate | exact H].
Defined.

End redirect.

Section redirect_theorem.

Import basic_logstream basic_logger.

Lemma open_lands (tid this : nat) (p : string) (st : state)
    (lg : basic_logger.t) :
  objects st !! this = Some lg ->
  m_lstrm_mtx lg = None ->
  can_open (env st) p = true ->
  exists st' lg',
    invoke tid this (open_ p) st = Some (this, st')
    /\ objects st' = <[this := lg']> (objects st)
    /\ on_file p lg lg'
    /\ is_Some (files (env st') !! p)
    /\ steady_clock (env st') = steady_clock (env st)
    /\ can_open (env st') = can_open (env st).
Proof.
  intros Hlk Hmtx Hcan.
  destruct (open_granted_any p (env st) (m_lstrm lg) Hcan)
    as (H1 & H2 & H3 & H4).
  destruct (apply_keeps_clock (do_open p) (env st) (m_lstrm lg)) as [H5 H6].
  eexists _, _. split; [by apply invoke_open |].
  split; [done |]. by repeat split.
Qed.

Lemma line_lands_in_file (tid this : nat) (p x : string) (m : leveled)
    (msgs : list string) (st : state) (lg0 lg : basic_logger.t) :
  objects st !! this = Some lg ->
  on_file p lg0 lg ->
  files (env st) !! p = Some x ->
  log_level.ge (severity m) (m_min_lvl_atm lg0) = true ->
  exists st' lg',
    invoke tid this (log m msgs) st = Some (this, st')
    /\ objects st' = <[this := lg']> (objects st)
    /\ on_file p lg0 lg'
    /\ files (env st') !! p = Some (x +:+ line_of tid (env st) lg m msgs)
    /\ steady_clock (env st') = steady_clock (env st)
    /\ can_open (env st') = can_open (env st).
Proof.
  intros Hlk (Hmtx & Hlvl & Hst & Hw & Hrb & Hfb) Hx Hge.
  rewrite <- Hlvl in Hge.
  destruct (invoke_log_pass tid this m msgs st lg Hlk Hmtx Hw Hge)
    as (w' & ls' & Hinv & Happ & Hfl & Hfile).
  destruct Happ as (Hw' & _ & Hrb' & Hf' & Hc' & Ho'). simpl in *.
  eexists _, _. split; [exact Hinv |]. split; [done |]. simpl.
  split; [| split; [| done]].
  - unfold on_file. simpl. repeat split; try done; try congruence.
    unfold flushed in Hfl. rewrite Hrb', Hrb in Hfl.
    apply bool_decide_eq_true in Hfl. rewrite Hfb in Hf'. simpl in Hf'.
    destruct (m_filebuf ls'); simpl in *. congruence.
  - rewrite (Hfile p Hrb) by (by rewrite Hfb). f_equal.
    unfold target_text. rewrite Hrb, Hfb. simpl. rewrite Hx. simpl.
    by rewrite text_app_nil_r.
Qed.

(** X9: [open_file] on a first path, a line, [open_file] on a second path,
    another line: the first file ends with the first line and is not touched
    again, the second file gets the second line behind what it held. *)
Theorem open_file_redirects (tid this : nat) (p1 p2 : string)
    (m1 m2 : leveled) (msgs1 msgs2 : list string) (st : state)
    (lg : basic_logger.t) :
  objects st !! this = Some lg ->
  m_lstrm_mtx lg = None ->
  can_open (env st) p1 = true ->
  can_open (env st) p2 = true ->
  p1 <> p2 ->
  log_level.ge (severity m1) (m_min_lvl_atm lg) = true ->
  log_level.ge (severity m2) (m_min_lvl_atm lg) = true ->
  exists st1 st2 st3 st4 x1 x2,
    invoke tid this (open_ p1) st = Some (this, st1)
    /\ files (env st1) !! p1 = Some x1
    /\ invoke tid this (log m1 msgs1) st1 = Some (this, st2)
    /\ invoke tid this (open_ p2) st2 = Some (this, st3)
    /\ files (env st3) !! p2 = Some x2
    /\ invoke tid this (log m2 msgs2) st3 = Some (this, st4)
    /\ files (env st4) !! p1
       = Some (x1 +:+ line_of tid (env st) lg m1 msgs1)
    /\ files (env st4) !! p2
       = Some (x2 +:+ line_of tid (env st) lg m2 msgs2).
Proof.
  intros Hlk Hmtx Hc1 Hc2 Hne Hg1 Hg2.
  destruct (open_lands tid this p1 st lg Hlk Hmtx Hc1)
    as (st1 & lg1 & H1 & Ho1 & Hon1 & [x1 Hx1] & Hk1 & Hp1).
  assert (Hlk1 : objects st1 !! this = Some lg1).
  { rewrite Ho1. apply lookup_insert_eq. }
  destruct (line_lands_in_file tid this p1 x1 m1 msgs1 st1 lg lg1
              Hlk1 Hon1 Hx1 Hg1)
    as (st2 & lg2 & H2 & Ho2 & Hon2 & Hf2 & Hk2 & Hp2).
  assert (Hlk2 : objects st2 !! this = Some lg2).
  { rewrite Ho2. apply lookup_insert_eq. }
  destruct Hon2 as (Hm2 & Hl2 & Hs2 & Hw2 & Hrb2 & Hfb2).
  destruct (open_lands tid this p2 st2 lg2 Hlk2 Hm2)
    as (st3 & lg3 & H3 & Ho3 & Hon3 & [x2 Hx2] & Hk3 & Hp3);
    [congruence |].
  assert (Hlk3 : objects st3 !! this = Some lg3).
  { rewrite Ho3. apply lookup_insert_eq. }
  assert (Hf3 : files (env st3) !! p1 = files (env st2) !! p1).
  { rewrite (invoke_open _ _ _ _ lg2) in H3 by done.
    injection H3 as <-. simpl. rewrite Hf2.
    apply open_keeps_flushed_file; by rewrite ?Hfb2. }
  assert (Hon3' : on_file p2 lg lg3).
  { destruct Hon3 as (? & ? & ? & ? & ? & ?). unfold on_file.
    repeat split; try done; congruence. }
  destruct (line_lands_in_file tid this p2 x2 m2 msgs2 st3 lg lg3
              Hlk3 Hon3' Hx2 Hg2)
    as (st4 & lg4 & H4 & Ho4 & Hon4 & Hf4 & Hk4 & Hp4).
  assert (Hf4' : files (env st4) !! p1 = files (env st3) !! p1).
  { destruct Hon3 as (Hm3 & _ & _ & _ & _ & Hfb3).
    apply (invoke_files_elsewhere tid this (log m2 msgs2) p1 st3 st4 lg3);
      try done.
    rewrite Hfb3. simpl. congruence. }
  exists st1, st2, st3, st4, x1, x2.
  split; [done |]. split; [done |]. split; [done |]. split; [done |].
  split; [done |]. split; [done |]. split.
  - rewrite Hf4', Hf3, Hf2. f_equal. f_equal.
    destruct Hon1 as (_ & _ & Hs1 & _). by apply line_of_same.
  - rewrite Hf4. f_equal. f_equal.
    destruct Hon3' as (_ & _ & Hs3 & _). apply line_of_same; [| done].
    congruence.
Qed.

Lemma open_file_redirects_witness :
  exists st4 x2,
    files (env st4) !! "/var/log/b.log"
    = Some (x2 +:+ line_of 1 (env (sample_state slug.info))
                     (basic_logger.init slug.info sample_world)
                     Error ["second"]).
Proof.
  destruct (open_file_redirects 1 7 "/var/log/app.log" "/var/log/b.log"
              Info Error ["first"] ["second"] (sample_state slug.info)
              (basic_logger.init slug.info sample_world)
              eq_refl eq_refl eq_refl eq_refl)
    as (st1 & st2 & st3 & st4 & x1 & x2 & H1 & Hx1 & H2 & H3 & Hx2 & H4
        & Hf1 & Hf2); [discriminate | reflexivity | reflexivity |].
  exists st4, x2. exact Hf2.
Defined.

End redirect_theorem.

(** * Construction and destruction *)

Section lifecycle.

Import basic_logstream basic_logger.

(** X10: destroying a logger whose file buffer has a file open writes out
    what the buffer holds, in any stream state, removes the logger and
    leaves the other loggers as they are. *)
Theorem destroy_writes_buffer_out (this : nat) (p : string) (st : state)
    (lg : basic_logger.t) :
  objects st !! this = Some lg ->
  basic_filebuf.file (m_filebuf (m_lstrm lg)) = Some p ->
  exists st',
    destroy this st = Some st'
    /\ objects st' = delete this (objects st)
    /\ files (env st') !! p
       = Some (default "" (files (env st) !! p)
               +:+ basic_filebuf.put_area (m_filebuf (m_lstrm lg))).
Proof.
  intros Hlk Hf. unfold destroy. rewrite Hlk. simpl.
  destruct (close_flush (env st) (m_lstrm lg) p Hf) as (Hp & _).
  destruct (close (env st) (m_lstrm lg)) as [w ls]. simpl in Hp.
  by eexists.
Qed.

Lemma destroy_writes_buffer_out_witness :
  exists st',
    destroy 7
      (store 7 sample_world
         (with_lstrm
            (insert "tail" sample_world
               (open "/var/log/app.log" sample_world basic_logstream.init).2).2
            (basic_logger.init slug.info sample_world))
         (sample_state slug.info))
    = Some st'.
Proof.
  destruct (destroy_writes_buffer_out 7 "/var/log/app.log"
              (store 7 sample_world
                 (with_lstrm
                    (insert "tail" sample_world
                       (open "/var/log/app.log" sample_world
                          basic_logstream.init).2).2
                    (basic_logger.init slug.info sample_world))
                 (sample_state slug.info))
              (with_lstrm
                 (insert "tail" sample_world
                    (open "/var/log/app.log" sample_world
                       basic_logstream.init).2).2
                 (basic_logger.init slug.info sample_world))
              eq_refl eq_refl)
    as (st' & H & _).
  by exists st'.
Defined.

(** X11: a logger constructed on a path that cannot be opened is built all
    the same (nothing is thrown, no file or console character changes), with
    the level asked for and the clock reading as its start time, but its
    stream is stranded on its closed file buffer and reports no failure; every
    leveled call on it returns normally and writes nothing. *)
Theorem construct_on_refused_path (tid this : nat) (lvl : log_level.t)
    (p : string) (m : leveled) (msgs : list string) (st : state) :
  can_open (env st) p = false ->
  let st' := construct_path this lvl p st in
  env st' = env st
  /\ get_min_log_level this st' = Some lvl
  /\ start_time this st' = Some (steady_clock (env st))
  /\ stranded_at this st' = true
  /\ (fail <$> stream this st') = Some false
  /\ exists st'',
      invoke tid this (log m msgs) st' = Some (this, st'')
      /\ env st'' = env st.
Proof.
  intros Hcan. unfold construct_path, basic_logger.init_path,
    basic_logstream.init_path.
  rewrite (open_refused _ _ _ Hcan). simpl.
  unfold get_min_log_level, start_time, stream, stranded_at. simpl.
  rewrite lookup_insert_eq. simpl.
  repeat split; try done.
  match goal with
  | |- context [invoke _ _ _ ?s] =>
      destruct (invoke_log_stranded tid this m msgs s
                  {| m_start_time := current_time (env st);
                     m_lstrm_mtx := None;
                     m_lstrm := set_rdbuf own_filebuf basic_logstream.init;
                     m_min_lvl_atm := lvl |})
        as (ls' & H & _); [apply lookup_insert_eq | done | done |]
  end.
  eexists. split; [exact H | done].
Qed.

Lemma construct_on_refused_path_witness :
  stranded_at 7
    (construct_path 7 slug.info "/missing/dir/app.log"
       (sample_state slug.info))
  = true.
Proof.
  apply (construct_on_refused_path 1 7 slug.info "/missing/dir/app.log"
           Error ["y"] (sample_state slug.info)).
  reflexivity.
Defined.

(** X12: a logger constructed on a path that can be opened has the file (made
    empty if it was not there, untouched if it was), and the first line
    logged at or above its level, with no time passed, lands behind the
    file's bytes with an elapsed time of 0.000. *)
Theorem construct_on_granted_path (tid this : nat) (lvl : log_level.t)
    (p : string) (m : leveled) (msgs : list string) (st : state) :
  can_open (env st) p = true ->
  log_level.ge (severity m) lvl = true ->
  let st' := construct_path this lvl p st in
  files (env st') !! p = Some (default "" (files (env st) !! p))
  /\ get_min_log_level this st' = Some lvl
  /\ (is_open <$> stream this st') = Some true
  /\ exists st'',
      invoke tid this (log m msgs) st' = Some (this, st'')
      /\ files (env st'') !! p
         = Some (default "" (files (env st) !! p)
                 +:+ spec_line (setw 5 (pretty tid)) "0.000" (tag m) msgs).
Proof.
  intros Hcan Hge. unfold construct_path, basic_logger.init_path,
    basic_logstream.init_path.
  destruct (open_granted p (env st) basic_logstream.init Hcan eq_refl)
    as (Hw & Hrb & Hfb & Hf & Hc & Ho).
  destruct (open p (env st) basic_logstream.init) as [w ls] eqn:E.
  simpl in *.
  unfold get_min_log_level, stream. simpl. rewrite lookup_insert_eq. simpl.
  split; [done |]. split; [done |].
  split; [unfold is_open, basic_filebuf.is_open; by rewrite Hfb |].
  set (lg := {| m_start_time := current_time (env st); m_lstrm_mtx := None;
                m_lstrm := ls; m_min_lvl_atm := lvl |}).
  match goal with
  | |- context [invoke _ _ _ ?s] =>
      destruct (line_lands_in_file tid this p
                  (default "" (files (env st) !! p)) m msgs s lg lg)
        as (st'' & lg' & H & _ & _ & Hline & _);
        [apply lookup_insert_eq | by repeat split | done | done |]
  end.
  exists st''. split; [exact H |]. rewrite Hline. do 2 f_equal.
  rewrite line_of_shape. simpl. unfold current_time. rewrite Hc.
  by rewrite Z.sub_diag.
Qed.

Lemma construct_on_granted_path_witness :
  files (env (construct_path 7 slug.info "/var/log/new.log"
                (sample_state slug.info))) !! "/var/log/new.log"
  = Some "".
Proof.
  apply (construct_on_granted_path 1 7 slug.info "/var/log/new.log"
           Error ["y"] (sample_state slug.info)); reflexivity.
Defined.

(** X13: the default level is Info in a debug build and Error in a build with
    NDEBUG: a logger constructed with it on the console emits fatal and
    error lines in both builds, warning and info lines only in a debug
    build, and trace lines in neither. *)
Theorem default_level_by_build (tid this : nat) (ndebug : bool) (m : leveled)
    (msgs : list string) (st : state) :
  let st' := construct this (default_lvl ndebug) st in
  let emits :=
    match m with
    | Fatal | Error => true
    | Warning | Info => negb ndebug
    | Trace => false
    end in
  exists st'',
    invoke tid this (log m msgs) st' = Some (this, st'')
    /\ if emits
       then text_at this st''
            = Some ((console (env st) +:+ clog_put (env st))
                    +:+ spec_line (setw 5 (pretty tid)) "0.000" (tag m) msgs)
       else st'' = st'.
Proof.
  intros st' emits.
  set (lg := basic_logger.init (default_lvl ndebug) (env st)).
  assert (Hlk : objects st' !! this = Some lg) by apply lookup_insert_eq.
  assert (Hge : log_level.ge (severity m) (m_min_lvl_atm lg) = emits).
  { by destruct m, ndebug. }
  destruct emits.
  - destruct (invoke_log_pass tid this m msgs st' lg Hlk eq_refl eq_refl Hge)
      as (w' & ls' & H & Happ & _).
    eexists. split; [exact H |].
    unfold text_at. rewrite store_lookup. simpl.
    destruct Happ as (_ & Htxt & _). simpl in Htxt. rewrite Htxt.
    do 2 f_equal. rewrite line_of_shape. simpl. unfold current_time.
    by rewrite Z.sub_diag.
  - destruct (invoke_log_below tid this m msgs st' lg Hlk Hge) as [_ H].
    by exists st'.
Qed.

End lifecycle.

(** * Swapping, one thread at a time *)

Section swap_alone.

Import basic_logstream basic_logger.

Lemma body_swap (a b : nat) (st : state) (la lb : basic_logger.t) :
  a <> b ->
  objects st !! a = Some la ->
  objects st !! b = Some lb ->
  body a (swap_with b) st
  = Some [lock_stream a; lock_stream b; swap_members a b;
          unlock_stream b; unlock_stream a].
Proof.
  intros Hne Ha Hb. simpl. unfold swap. rewrite Ha, Hb. simpl.
  by rewrite decide_False.
Qed.

Lemma exec_swap_members (tid a b : nat) (st : state)
    (la lb : basic_logger.t) :
  objects st !! a = Some la ->
  objects st !! b = Some lb ->
  exec tid (swap_members a b) st
  = Some {| env := env st;
            objects := <[b := swapped_with lb la]>
                         (<[a := swapped_with la lb]> (objects st)) |}.
Proof. intros Ha Hb. simpl. rewrite Ha. simpl. by rewrite Hb. Qed.

Lemma invoke_swap (tid a b : nat) (st : state) (la lb : basic_logger.t) :
  a <> b ->
  objects st !! a = Some la ->
  objects st !! b = Some lb ->
  m_lstrm_mtx la = None ->
  m_lstrm_mtx lb = None ->
  invoke tid a (swap_with b) st
  = Some (a, {| env := env st;
                objects := <[b := swapped_with lb la]>
                             (<[a := swapped_with la lb]> (objects st)) |}).
Proof.
  intros Hne Ha Hb Hma Hmb. unfold invoke.
  rewrite (body_swap a b st la lb) by done. rewrite bind_Some.
  rewrite run_cons, (exec_lock _ _ _ la), bind_Some by done.
  rewrite run_cons, (exec_lock _ _ _ lb), bind_Some;
    [| by rewrite store_lookup_ne | done].
  rewrite run_cons,
    (exec_swap_members _ _ _ _ (with_mtx (Some tid) la)
       (with_mtx (Some tid) lb)), bind_Some;
    [| by rewrite store_lookup_ne, store_lookup | by rewrite store_lookup].
  rewrite run_cons.
  erewrite exec_unlock;
    [| simpl; apply lookup_insert_eq | done].
  rewrite bind_Some, run_cons.
  erewrite exec_unlock;
    [| simpl; rewrite lookup_insert_ne by done;
       rewrite lookup_insert_ne by done; apply lookup_insert_eq | done].
  rewrite bind_Some. simpl run. rewrite bind_Some.
  unfold store. simpl. do 3 f_equal. apply map_eq. intros k.
  destruct (decide (k = a)) as [-> | Hka];
    [| destruct (decide (k = b)) as [-> | Hkb]].
  - rewrite lookup_insert_eq, lookup_insert_ne, lookup_insert_eq by done.
    f_equal. unfold swapped_with, with_mtx. simpl. by rewrite Hma.
  - rewrite lookup_insert_ne, !lookup_insert_eq by done.
    f_equal. unfold swapped_with, with_mtx. simpl. by rewrite Hmb.
  - by rewrite !lookup_insert_ne by done.
Qed.

Lemma swapped_back (la lb : basic_logger.t) :
  swapped_with (swapped_with la lb) (swapped_with lb la) = la.
Proof. by destruct la as [? ? [? ? ?] ?]. Qed.

(** X14: [swap] of two distinct loggers, run with both mutexes free, returns
    and leaves both free; the loggers exchange start time, level, stream
    state and file buffer while each stream keeps its own [rdbuf()];
    [b.swap(a)] has the same effect as [a.swap(b)], the environment is not
    touched, and a second swap restores the state exactly. *)
Theorem swap_exchanges_and_undoes (tid a b : nat) (st : state)
    (la lb : basic_logger.t) :
  a <> b ->
  objects st !! a = Some la ->
  objects st !! b = Some lb ->
  m_lstrm_mtx la = None ->
  m_lstrm_mtx lb = None ->
  exists st1,
    invoke tid a (swap_with b) st = Some (a, st1)
    /\ invoke tid b (swap_with a) st = Some (b, st1)
    /\ env st1 = env st
    /\ objects st1 !! a = Some (swapped_with la lb)
    /\ objects st1 !! b = Some (swapped_with lb la)
    /\ get_min_log_level a st1 = get_min_log_level b st
    /\ get_min_log_level b st1 = get_min_log_level a st
    /\ start_time a st1 = start_time b st
    /\ start_time b st1 = start_time a st
    /\ (rdbuf <$> stream a st1) = (rdbuf <$> stream a st)
    /\ (rdbuf <$> stream b st1) = (rdbuf <$> stream b st)
    /\ (m_filebuf <$> stream a st1) = (m_filebuf <$> stream b st)
    /\ (m_filebuf <$> stream b st1) = (m_filebuf <$> stream a st)
    /\ invoke tid a (swap_with b) st1 = Some (a, st).
Proof.
  intros Hne Ha Hb Hma Hmb.
  eexists. split; [by apply invoke_swap |].
  assert (H1a : (<[b := swapped_with lb la]>
                   (<[a := swapped_with la lb]> (objects st))) !! a
                = Some (swapped_with la lb)).
  { by rewrite lookup_insert_ne, lookup_insert_eq. }
  assert (H1b : (<[b := swapped_with lb la]>
                   (<[a := swapped_with la lb]> (objects st))) !! b
                = Some (swapped_with lb la)).
  { by rewrite lookup_insert_eq. }
  split.
  { rewrite (invoke_swap tid b a st lb la) by done.
    do 3 f_equal. by apply insert_insert_ne. }
  split; [done |]. split; [exact H1a |]. split; [exact H1b |].
  unfold get_min_log_level, start_time, stream. simpl.
  rewrite H1a, H1b, Ha, Hb. simpl.
  do 8 (split; [done |]).
  rewrite (invoke_swap tid a b _ (swapped_with la lb) (swapped_with lb la))
    by done.
  simpl. rewrite !swapped_back. do 2 f_equal.
  destruct st as [w objs]. simpl in *. f_equal.
  apply map_eq. intros k.
  destruct (decide (k = a)) as [-> | Hka];
    [| destruct (decide (k = b)) as [-> | Hkb]].
  - by rewrite lookup_insert_ne, lookup_insert_eq.
  - by rewrite lookup_insert_eq.
  - by rewrite !lookup_insert_ne by done.
Qed.

Lemma swap_exchanges_and_undoes_witness :
  exists st1,
    invoke 0 1 (swap_with 2) two_loggers = Some (1, st1)
    /\ invoke 0 1 (swap_with 2) st1 = Some (1, two_loggers).
Proof.
  destruct (swap_exchanges_and_undoes 0 1 2 two_loggers
              (basic_logger.init slug.info sample_world)
              (basic_logger.init slug.error sample_world))
    as (st1 & H1 & _ & _ & _ & _ & _ & _ & _ & _ & _ & _ & _ & _ & H14);
    try reflexivity; [discriminate |].
  exists st1. split; [exact H1 | exact H14].
Defined.

(** X15: after a logger on an open file is swapped with a logger on the
    console, the first stands on its own file buffer, which is now the
    closed one, and every leveled call on it writes nothing; the second has
    the open file in its buffer, so [is_open()] is true, while its stream
    still writes to the console. *)
Theorem swap_strands_the_file_logger (tid a b : nat) (m : leveled)
    (msgs : list string) (st : state) (la lb : basic_logger.t) :
  a <> b ->
  objects st !! a = Some la ->
  objects st !! b = Some lb ->
  m_lstrm_mtx la = None ->
  m_lstrm_mtx lb = None ->
  file_bound (m_lstrm la) = true ->
  console_bound (m_lstrm lb) = true ->
  exists st1 st2,
    invoke tid a (swap_with b) st = Some (a, st1)
    /\ stranded_at a st1 = true
    /\ (is_open <$> stream b st1) = Some true
    /\ (rdbuf <$> stream b st1) = Some clog_rdbuf
    /\ invoke tid a (log m msgs) st1 = Some (a, st2)
    /\ env st2 = env st.
Proof.
  intros Hne Ha Hb Hma Hmb Hfa Hcb.
  assert (H1a : (<[b := swapped_with lb la]>
                   (<[a := swapped_with la lb]> (objects st))) !! a
                = Some (swapped_with la lb)).
  { by rewrite lookup_insert_ne, lookup_insert_eq. }
  assert (Hs : stranded (m_lstrm (swapped_with la lb)) = true
               /\ is_open (m_lstrm (swapped_with lb la)) = true
               /\ rdbuf (m_lstrm (swapped_with lb la)) = clog_rdbuf).
  { destruct la as [? ? [[] ? [[?|] ?]] ?], lb as [? ? [[] ? [[?|] ?]] ?];
      by vm_compute in Hfa, Hcb |- *. }
  destruct Hs as (Hs1 & Hs2 & Hs3).
  destruct (invoke_log_stranded tid a m msgs
              {| env := env st;
                 objects := <[b := swapped_with lb la]>
                              (<[a := swapped_with la lb]> (objects st)) |}
              (swapped_with la lb) H1a Hma Hs1) as (ls' & H2 & _).
  eexists _, _. split; [by apply invoke_swap |].
  unfold stranded_at, stream. simpl. rewrite H1a, lookup_insert_eq.
  split; [done |].
  split; [exact (f_equal Some Hs2) |]. split; [exact (f_equal Some Hs3) |].
  split; [exact H2 | done].
Qed.

Lemma swap_strands_the_file_logger_witness :
  exists st1 st2,
    invoke 0 1 (swap_with 2)
      (construct_path 1 slug.info "/var/log/app.log" two_loggers)
    = Some (1, st1)
    /\ stranded_at 1 st1 = true
    /\ invoke 0 1 (log Error ["x"]) st1 = Some (1, st2)
    /\ env st2 = sample_world.
Proof.
  destruct (swap_strands_the_file_logger 0 1 2 Error ["x"]
              (construct_path 1 slug.info "/var/log/app.log" two_loggers)
              (basic_logger.init_path slug.info "/var/log/app.log"
                 sample_world).2
              (basic_logger.init slug.error sample_world))
    as (st1 & st2 & H1 & H2 & _ & _ & H5 & H6);
    try reflexivity; [discriminate |].
  exists st1, st2.
  split; [exact H1 |]. split; [exact H2 |]. split; [exact H5 | exact H6].
Defined.

End swap_alone.

(** * Threads on one logger always get to the end *)

Section work.

Import basic_logstream basic_logger threads.

(** No member function loops: a call takes fewer steps than the measure
    gives it. *)
Lemma body_length (this : nat) (cl : call) (st : state) (ops : list op) :
  body this cl st = Some ops ->
  length ops < match cl with
               | log _ msgs => 6 + length msgs
               | _ => 6
               end.
Proof.
  destruct cl as [[] msgs | lvl | p | | rhs]; simpl;
    unfold basic_logger.fatal, basic_logger.error, basic_logger.warning,
      basic_logger.info, basic_logger.trace, min_log_level, open_file,
      close_file, basic_logger.swap;
    intros H;
    repeat match type of H with
           | context [objects st !! ?x] => destruct (objects st !! x)
           end;
    simpl in H; try done; injection H as <-;
    repeat case_match; unfold write_line; simpl;
    rewrite ?length_app, ?length_map; simpl; lia.
Qed.

Lemma insert_steps_left (i : nat) (t t' : thread) :
  forall ts : list thread,
    ts !! i = Some t ->
    steps_left t' < steps_left t ->
    sum_list (map steps_left (<[i := t']> ts))
    < sum_list (map steps_left ts).
Proof.
  revert i. intros i ts. revert i.
  induction ts as [| u ts IH]; intros [| i] Hi Hlt; simpl in *; try done.
  - injection Hi as ->. lia.
  - specialize (IH i Hi Hlt). lia.
Qed.

(** Every step of every thread uses up work. *)
Lemma thread_step_work (i : nat) (c c' : config) :
  thread_step i c = Some c' -> work_left c' < work_left c.
Proof.
  unfold thread_step, work_left. intros H.
  destruct (pool c !! i) as [t |] eqn:Hi; [| done]. simpl in H.
  destruct (pending t) as [| o os] eqn:Hp.
  - destruct (todo t) as [| [this cl] later] eqn:Ht; [done |].
    destruct (body this cl (shared c)) as [ops |] eqn:Hb; [| done].
    simpl in H. injection H as <-. simpl.
    apply (insert_steps_left i t); [done |].
    unfold steps_left. rewrite Hp, Ht. simpl.
    apply body_length in Hb. destruct cl; simpl in *; lia.
  - destruct (exec i o (shared c)) as [st' |]; [| done].
    simpl in H. injection H as <-. simpl.
    apply (insert_steps_left i t); [done |].
    unfold steps_left. rewrite Hp. simpl. lia.
Qed.

End work.

Section shared_logger_runs.

Import basic_logstream basic_logger threads.

Variables (a : nat) (T : log_level.t) (start : Z) (text0 : string).
Variable progs : list (list (leveled * list string)).

Abbreviation Inv' := (inv a T start text0 progs).

(** While work is left some thread can take a step: the holder of the
    mutex its next stream step or the unlock, and with the mutex free any
    thread that is not done. *)
Lemma inv_progress (c : config) :
  Inv' c ->
  finished c = false ->
  exists i c', thread_step i c = Some c'.
Proof.
  intros (lines & lg & Hlk & HT & Hst & Hw & Hfree & Hown & Hwho & Hlen & Hth)
    Hfin.
  assert (Hgo : forall i t o os,
             pool c !! i = Some t -> pending t = o :: os ->
             (m_lstrm_mtx lg = None \/ m_lstrm_mtx lg = Some i) ->
             exists c', thread_step i c = Some c').
  { intros i t o os Hi Hp Hm.
    destruct (Hth i t Hi) as (rest & _ & Hph). rewrite Hp in Hph.
    unfold thread_step. rewrite Hi. simpl. rewrite Hp.
    destruct (phase_next _ _ _ _ _ _ _ _ _ _ _ _ Hph)
      as [ (m & msgs & -> & _ & Hm' & _)
         | [ (m & msgs & -> & _ & Hm' & _)
           | [ (m & msgs & clk & s & ps & -> & _ & Hm' & _)
             | [ (m & msgs & clk & -> & _ & Hm' & _)
               | (-> & _ & Hm' & _) ]]]].
    - destruct Hm as [Hm | Hm]; [| done].
      rewrite (exec_lock _ _ _ lg Hlk Hm). simpl. eauto.
    - rewrite (exec_put_prefix _ _ _ lg Hlk). simpl. eauto.
    - rewrite (exec_put_text _ _ _ _ lg Hlk). simpl. eauto.
    - rewrite (exec_put_endl _ _ _ lg Hlk). simpl. eauto.
    - rewrite (exec_unlock _ _ _ lg Hlk Hm'). simpl. eauto. }
  destruct (m_lstrm_mtx lg) as [k |] eqn:Hm.
  - (* the holder goes on *)
    destruct (lookup_lt_is_Some_2 (pool c) k (Hown k eq_refl)) as [t Hk].
    destruct (Hth k t Hk) as (rest & _ & Hph).
    destruct (pending t) as [| o os] eqn:Hp.
    + inversion Hph as [Hm' Hacc | | | m' msgs' clk ps Hm' Heq Hacc Hnil |];
        [done |].
      by destruct ps.
    + exists k. eapply Hgo; eauto.
  - (* the mutex is free *)
    unfold finished in Hfin.
    apply not_true_iff_false in Hfin. rewrite forallb_forall in Hfin.
    assert (Hex : exists i t, pool c !! i = Some t /\ idle t = false).
    { destruct (decide (Forall (fun t => idle t = true) (pool c)))
        as [Hall | Hnot].
      - exfalso. apply Hfin. intros t Hin.
        rewrite Forall_forall in Hall. apply Hall.
        by apply list_elem_of_In.
      - apply not_Forall_Exists in Hnot; [| intros t; apply _].
        apply Exists_exists in Hnot. destruct Hnot as (t & Hin & Hidle).
        apply list_elem_of_lookup in Hin. destruct Hin as [i Hi].
        exists i, t. split; [done |]. by apply not_true_is_false. }
    destruct Hex as (i & t & Hi & Hidle).
    exists i.
    destruct (pending t) as [| o os] eqn:Hp.
    + destruct (Hth i t Hi) as (rest & Htodo & _).
      unfold idle in Hidle. rewrite Hp in Hidle.
      destruct (todo t) as [| [this cl] later] eqn:Ht; [done |].
      destruct rest as [| [m msgs] rest]; [done |].
      simpl in Htodo. injection Htodo as -> -> _.
      unfold thread_step. rewrite Hi. simpl. rewrite Hp, Ht.
      rewrite (body_log _ _ _ _ lg Hlk). simpl. eauto.
    + eapply Hgo; eauto.
Qed.

Lemma inv_completes (n : nat) :
  forall c,
    Inv' c ->
    work_left c <= n ->
    exists es c',
      length es <= n /\ steps es c = Some c' /\ finished c' = true.
Proof.
  induction n as [| n IH]; intros c HI Hn.
  - destruct (finished c) eqn:Hf.
    + exists [], c. by simpl.
    + destruct (inv_progress c HI Hf) as (i & c1 & H1).
      apply thread_step_work in H1. lia.
  - destruct (finished c) eqn:Hf.
    + exists [], c. simpl. split; [lia | done].
    + destruct (inv_progress c HI Hf) as (i & c1 & H1).
      destruct (IH c1) as (es & c' & Hlen & Hs & Hfin).
      * by apply (step_inv a T start text0 progs (step_of i) c c1).
      * apply thread_step_work in H1. lia.
      * exists (step_of i :: es), c'. simpl. rewrite H1. simpl.
        split; [lia | done].
Qed.

End shared_logger_runs.

Section never_stuck.

Import basic_logstream basic_logger threads.

(** X16: threads that only make leveled calls on one shared logger are never
    left waiting for each other: in every configuration a schedule can
    reach, either all threads are done or some thread can take its next
    step, and a continuation of at most [work_left] steps brings every
    call to its return. *)
Theorem shared_logger_runs_to_the_end
    (a : nat) (st0 : state) (lg0 : basic_logger.t)
    (progs : list (list (leveled * list string)))
    (sched : list event) (c : config) :
  objects st0 !! a = Some lg0 ->
  m_lstrm_mtx lg0 = None ->
  writable (m_lstrm lg0) = true ->
  steps sched (spawn st0 (map (map (to_call a)) progs)) = Some c ->
  ~ deadlocked c
  /\ exists more c',
      length more <= work_left c
      /\ steps more c = Some c'
      /\ finished c' = true.
Proof.
  intros Hlk Hm Hw Hs.
  pose proof (spawn_inv a st0 lg0 progs Hlk Hm Hw) as H0.
  pose proof (steps_inv _ _ _ _ _ sched _ _ H0 Hs) as HI.
  split.
  - intros [Hf Hno].
    destruct (inv_progress _ _ _ _ _ c HI Hf) as (i & c1 & H1).
    by rewrite Hno in H1.
  - by eapply inv_completes.
Qed.

Lemma shared_logger_runs_to_the_end_witness :
  exists c,
    steps [step_of 0; step_of 1; step_of 0]
      (spawn (sample_state slug.info) (map (map (to_call 7)) sample_programs))
    = Some c
    /\ ~ deadlocked c.
Proof.
  assert (H : exists c,
             steps [step_of 0; step_of 1; step_of 0]
               (spawn (sample_state slug.info)
                  (map (map (to_call 7)) sample_programs)) = Some c).
  { eexists. vm_compute. reflexivity. }
  destruct H as (c & Hs).
  exists c. split; [exact Hs |].
  exact (proj1 (shared_logger_runs_to_the_end 7 (sample_state slug.info)
                  (basic_logger.init slug.info sample_world) sample_programs
                  _ c eq_refl eq_refl eq_refl Hs)).
Defined.

End never_stuck.
